(** * Photometric stereo (pms.py): a shallow embedding and its properties

    The program is a NumPy script.  Its arrays hold IEEE binary64 numbers;
    the embedding is written once over a [Scalar] interface and read at two
    instances:

    - [float] (the kernel's binary64 numbers), where every operation is the
      one NumPy performs, including division by zero, NaN and signed zeros;
    - [R], the real numbers, the semantics in which the algebraic
      properties of the algorithms (unit norms, scale invariance) are
      stated.  Every theorem over [R] carries the hypotheses under which no
      division by zero occurs, so the totalised division of [R] is never
      exercised at zero.

    Two reductions, [np.linalg.norm] of a row of any length and
    [ndarray.dot] of two matrices, add their terms in an order that NumPy
    and BLAS choose; they are kept behind the interface [Reductions], which
    is read over [R] only.

    The routines of [numpy.linalg] that the script calls ([pinv], [lstsq],
    [svd], [eigvals], [eig]) are not part of the program: they are taken as
    parameters, and a theorem that depends on what they compute states their
    documented contract as a hypothesis. *)

From Stdlib Require Import Reals Lra Lia List Floats ZArith Bool Arith.
From Stdlib Require Import Permutation.
From Stdlib Require String.
Import ListNotations.

Set Implicit Arguments.

(** ** Scalars *)

Class Scalar (T : Type) : Type := {
  s_zero : T;
  s_one : T;
  s_two : T;
  s_add : T -> T -> T;
  s_sub : T -> T -> T;
  s_mul : T -> T -> T;
  s_div : T -> T -> T;
  s_neg : T -> T;
  s_sqrt : T -> T;
  s_abs : T -> T;
  s_eqb : T -> T -> bool;
  s_ltb : T -> T -> bool;
  s_leb : T -> T -> bool;
  s_of_nat : nat -> T
}.

Declare Scope scalar_scope.
Delimit Scope scalar_scope with S.
Infix "+" := s_add : scalar_scope.
Infix "-" := s_sub : scalar_scope.
Infix "*" := s_mul : scalar_scope.
Infix "/" := s_div : scalar_scope.
Notation "- x" := (s_neg x) : scalar_scope.

(** The real numbers; comparisons are decided classically. *)
#[export] Instance Scalar_R : Scalar R := {
  s_zero := 0%R;
  s_one := 1%R;
  s_two := 2%R;
  s_add := Rplus;
  s_sub := Rminus;
  s_mul := Rmult;
  s_div := Rdiv;
  s_neg := Ropp;
  s_sqrt := R_sqrt.sqrt;
  s_abs := Rabs;
  s_eqb := fun x y => if Req_dec_T x y then true else false;
  s_ltb := fun x y => if Rlt_dec x y then true else false;
  s_leb := fun x y => if Rle_dec x y then true else false;
  s_of_nat := INR
}.

(** IEEE binary64, as NumPy's float64. *)
#[export] Instance Scalar_float : Scalar float := {
  s_zero := 0%float;
  s_one := 1%float;
  s_two := 2%float;
  s_add := PrimFloat.add;
  s_sub := PrimFloat.sub;
  s_mul := PrimFloat.mul;
  s_div := PrimFloat.div;
  s_neg := PrimFloat.opp;
  s_sqrt := PrimFloat.sqrt;
  s_abs := PrimFloat.abs;
  s_eqb := PrimFloat.eqb;
  s_ltb := PrimFloat.ltb;
  s_leb := PrimFloat.leb;
  s_of_nat := fun n => PrimFloat.of_uint63 (Uint63.of_Z (Z.of_nat n))
}.

(** ** Outcomes of a run

    A run of one of the script's functions ends with a value, ends with a
    Python exception, or stops at the debugger breakpoint of line 121
    ([pdb.set_trace()]) and waits for a command.

    Of the exceptions, [ValueError] and [IndexError] are raised by NumPy
    on arrays of unfit shapes and on indices out of range, [LinAlgError]
    by [np.linalg.svd] when it does not converge and [BdbQuit] by the
    debugger; [ZeroDivisionError] and [TypeError] are what releases of
    NumPy raise on the average of an empty array of objects. *)

Inductive exn : Type :=
| ValueError
| IndexError
| BdbQuit
| LinAlgError
| ZeroDivisionError
| TypeError.

Inductive pdb_cmd : Type :=
| PdbContinue
| PdbQuit.

Inductive run (A : Type) : Type :=
| Done (a : A)
| Raise (e : exn)
| SetTrace (k : pdb_cmd -> run A).

Arguments Done {A} a.
Arguments Raise {A} e.
Arguments SetTrace {A} k.

Fixpoint bind {A B : Type} (m : run A) (f : A -> run B) : run B :=
  match m with
  | Done a => f a
  | Raise e => Raise e
  | SetTrace k => SetTrace (fun c => bind (k c) f)
  end.

Notation "x <- m ;; k" := (bind m (fun x => k))
  (at level 61, m at next level, right associativity).

(** [pdb.set_trace()]: the run is suspended; [c] resumes it, [q] aborts it
    with [BdbQuit]. *)
Definition set_trace : run unit :=
  SetTrace (fun c => match c with
                     | PdbContinue => Done tt
                     | PdbQuit => Raise BdbQuit
                     end).

(** A run that ends without ever waiting for the debugger. *)
Definition never_suspends {A : Type} (m : run A) : bool :=
  match m with
  | Done _ => true
  | Raise _ => true
  | SetTrace _ => false
  end.

(** ** Arrays *)

Section Arrays.
Context {T : Type} `{Scalar T}.
Local Open Scope scalar_scope.

Definition vec3 : Type := (T * T * T)%type.
Definition matrix : Type := list (list T).
(** An array of shape (rows, columns, 3). *)
Definition normal_field : Type := list (list vec3).

Definition zero3 : vec3 := (s_zero, s_zero, s_zero).

Definition scale3 (k : T) (v : vec3) : vec3 :=
  let '(x, y, z) := v in (k * x, k * y, k * z).

Definition add3 (u v : vec3) : vec3 :=
  let '(a, b, c) := u in let '(x, y, z) := v in (a + x, b + y, c + z).

(** [np.linalg.norm(v)] over an axis of length 3:
    [sqrt(add.reduce(v * v))]. *)
Definition norm3 (v : vec3) : T :=
  let '(x, y, z) := v in s_sqrt (x * x + y * y + z * z).

Definition sum (l : list T) : T := fold_left s_add l s_zero.

End Arrays.

Arguments vec3 T : clear implicits.
Arguments matrix T : clear implicits.
Arguments normal_field T : clear implicits.

(** Elementwise operations on arrays of one and two dimensions. *)

Fixpoint zip_with {A B C : Type} (f : A -> B -> C) (l1 : list A) (l2 : list B)
  : list C :=
  match l1, l2 with
  | a :: l1', b :: l2' => f a b :: zip_with f l1' l2'
  | _, _ => []
  end.

Definition gmap {A B : Type} (f : A -> B) (g : list (list A)) : list (list B) :=
  map (map f) g.

Definition gmap2 {A B C : Type} (f : A -> B -> C)
  (g1 : list (list A)) (g2 : list (list B)) : list (list C) :=
  zip_with (zip_with f) g1 g2.

(** A grid given by a function of its row and column labels. *)
Definition tab {A B C : Type} (l1 : list A) (l2 : list B) (F : A -> B -> C)
  : list (list C) :=
  map (fun r => map (fun c => F r c) l2) l1.

(** [g[a][b]], when the indices are in range. *)
Definition grid_at {A : Type} (g : list (list A)) (a b : nat) : option A :=
  match nth_error g a with
  | Some row => nth_error row b
  | None => None
  end.

(** [g.swapaxes(0, 1)] (and [np.transpose] of a matrix): entry [(j, i)] of
    the result is entry [(i, j)] of [g]; [d] fills a ragged input. *)
Definition swapaxes01 {A : Type} (d : A) (g : list (list A)) : list (list A) :=
  map (fun j => map (fun row => nth j row d) g) (seq 0 (length (hd [] g))).

(** [l[-1] = v] *)
Definition set_last {A : Type} (l : list A) (v : A) : list A :=
  match l with
  | [] => []
  | _ => removelast l ++ [v]
  end.

(** ** NormalColorizer: [colorizeNormals] (lines 135-143) *)

Section Colorizer.
Context {T : Type} `{Scalar T}.
Local Open Scope scalar_scope.

Definition div3 (u v : vec3 T) : vec3 T :=
  let '(a, b, c) := u in let '(x, y, z) := v in (a / x, b / y, c / z).

(** <<
    nf = np.linalg.norm(normals, axis=normals.ndim - 1)
    normals_n = normals / np.dstack((nf, nf, nf))
    color = (normals_n + 1) / 2
    >> *)
Definition colorizeNormals (normals : normal_field T) : normal_field T :=
  let nf := gmap norm3 normals in
  let normals_n := gmap2 div3 normals (gmap (fun n => (n, n, n)) nf) in
  let color :=
    gmap (fun v : vec3 T =>
            let '(x, y, z) := v in
            ((x + s_one) / s_two, (y + s_one) / s_two, (z + s_one) / s_two))
         normals_n in
  color.

(** What [colorizeNormals] computes at one position. *)
Definition colorize (v : vec3 T) : vec3 T :=
  let nf := norm3 v in
  let '(x, y, z) := v in
  ((x / nf + s_one) / s_two, (y / nf + s_one) / s_two, (z / nf + s_one) / s_two).
End Colorizer.

(** ** SphereNormalGenerator: [generateNormalMap] (lines 145-161) *)

Section Sphere.
Context {T : Type} `{Scalar T}.
Local Open Scope scalar_scope.

(** [np.linspace(start, stop, num)]:
    [step = (stop - start) / (num - 1)], [y = arange(0, num) * step + start],
    [y[-1] = stop]. *)
Definition linspace (start stop : T) (num : nat) : list T :=
  match num with
  | 0 => []
  | 1 => [start]
  | _ =>
      let step := (stop - start) / s_of_nat (num - 1) in
      set_last (map (fun i => s_of_nat i * step + start) (seq 0 num)) stop
  end.

(** [np.meshgrid(a, b)]: [X[r][c] = a[c]] and [Y[r][c] = b[r]]. *)
Definition meshgrid (a b : list T) : matrix T * matrix T :=
  (map (fun _ => a) b, map (fun y => map (fun _ => y) a) b).

(** The array [this_array] of line 155, the normals of the sphere, with
    the mask [valid] of line 150. *)
Definition sphereNormals (dims : nat) : list (list bool) * normal_field T :=
  let '(x, y) := meshgrid (linspace (- s_one) s_one dims)
                          (linspace (- s_one) s_one dims) in
  let zsq := gmap2 s_sub (gmap (fun a => s_one - a * a) x)
                         (gmap (fun b => b * b) y) in
  let valid := gmap (fun v => s_leb s_zero v) zsq in
  let z := gmap2 (fun (ok : bool) v => if ok then s_sqrt v else s_zero)
                 valid zsq in
  let this_array :=
    swapaxes01 zero3
      (gmap2 (fun (xy : T * T) c => (fst xy, - snd xy, c))
             (gmap2 pair x y) z) in
  (valid, this_array).

Definition generateNormalMap (dims : nat) : normal_field T :=
  let '(valid, this_array) := sphereNormals dims in
  let color := colorizeNormals this_array in
  let img := color in
  (* img[~valid] = 0 *)
  gmap2 (fun (ok : bool) c => if ok then c else zero3) valid img.

(** The normal computed for the grid point with abscissa [x] and
    ordinate [y]. *)
Definition normal_at (x y : T) : vec3 T :=
  let zsq := s_one - x * x - y * y in
  (x, - y, if s_leb s_zero zsq then s_sqrt zsq else s_zero).

(** The default resolution, [dims=600]. *)
Definition default_dims : nat := 600.
End Sphere.

(** ** Linear algebra on three-dimensional vectors

    A matrix with a side of length 3 is kept as a list of 3-vectors: the
    lighting matrix [N] (n x 3) as its n rows, its pseudo-inverse (3 x n)
    and the solver's solutions (3 x p) as their columns. *)

Section Linear3.
Context {T : Type} `{Scalar T}.
Local Open Scope scalar_scope.

Definition mat3 : Type := (vec3 T * vec3 T * vec3 T)%type.

Definition dot3 (u v : vec3 T) : T :=
  let '(a, b, c) := u in let '(x, y, z) := v in a * x + b * y + c * z.

Definition mat3_vec (G : mat3) (v : vec3 T) : vec3 T :=
  let '(r1, r2, r3) := G in (dot3 r1 v, dot3 r2 v, dot3 r3 v).

Definition mat3_add (G K : mat3) : mat3 :=
  let '(r1, r2, r3) := G in let '(q1, q2, q3) := K in
  (add3 r1 q1, add3 r2 q2, add3 r3 q3).

Definition mat3_sub (G K : mat3) : mat3 :=
  let '(r1, r2, r3) := G in let '(q1, q2, q3) := K in
  (add3 r1 (scale3 (- s_one) q1), add3 r2 (scale3 (- s_one) q2),
   add3 r3 (scale3 (- s_one) q3)).

Definition mat3_scale (k : T) (G : mat3) : mat3 :=
  let '(r1, r2, r3) := G in (scale3 k r1, scale3 k r2, scale3 k r3).

Definition mat3_zero : mat3 := (zero3, zero3, zero3).

Definition mat3_transpose (G : mat3) : mat3 :=
  let '((a, b, c), (d, e, f), (g, h, i)) := G in
  ((a, d, g), (b, e, h), (c, f, i)).

Definition mat3_mul (G K : mat3) : mat3 :=
  let '(r1, r2, r3) := G in
  let Kt := mat3_transpose K in
  (mat3_vec Kt r1, mat3_vec Kt r2, mat3_vec Kt r3).

(** [u v^T] *)
Definition outer (u v : vec3 T) : mat3 :=
  let '(a, b, c) := u in (scale3 a v, scale3 b v, scale3 c v).

Definition det3 (G : mat3) : T :=
  let '((a, b, c), (d, e, f), (g, h, i)) := G in
  a * (e * i - f * h) - b * (d * i - f * g) + c * (d * h - e * g).

Definition trace3 (G : mat3) : T :=
  let '((a, _, _), (_, e, _), (_, _, i)) := G in a + e + i.

(** The sum of the principal 2 x 2 minors. *)
Definition minors3 (G : mat3) : T :=
  let '((a, b, c), (d, e, f), (g, h, i)) := G in
  (a * e - b * d) + (a * i - c * g) + (e * i - f * h).

Definition adj3 (G : mat3) : mat3 :=
  let '((a, b, c), (d, e, f), (g, h, i)) := G in
  ((e * i - f * h, c * h - b * i, b * f - c * e),
   (f * g - d * i, a * i - c * g, c * d - a * f),
   (d * h - e * g, b * g - a * h, a * e - b * d)).

(** [sum_i b_i * X_i]: the product of the matrix with columns [X] and the
    vector [b]; for the rows [N] of the lighting matrix, [N^T b]. *)
Definition lincomb (X : list (vec3 T)) (b : list T) : vec3 T :=
  fold_left add3 (zip_with scale3 b X) zero3.

(** [N^T N] *)
Definition gram (N : list (vec3 T)) : mat3 :=
  fold_left mat3_add (map (fun u => outer u u) N) mat3_zero.

(** The lighting matrix with rows [N] has column rank 3: its Gram
    matrix [N^T N] is invertible. *)
Definition full_column_rank (N : list (vec3 T)) : Prop :=
  det3 (gram N) <> s_zero.

(** [M[:, j]] *)
Definition column (j : nat) (M : matrix T) : list T :=
  map (fun row => nth j row s_zero) M.

Definition ncols (M : matrix T) : nat := length (hd [] M).

(** [X.dot(M)] for [X] of shape 3 x n (its columns) and [M] of shape
    n x p: the p columns of the product. *)
Definition dot_3n (X : list (vec3 T)) (M : matrix T) : list (vec3 T) :=
  map (fun j => lincomb X (column j M)) (seq 0 (ncols M)).
End Linear3.

Arguments mat3 T : clear implicits.

(** ** Reductions over an axis of any length

    [np.linalg.norm(r)] of a one-dimensional array and [A.dot(B)] of two
    matrices are sums of products.  At binary64 their value depends on the
    order of the additions, which is NumPy's (pairwise, in blocks) and
    that of the BLAS library behind [dot]; the embedding does not fix it.
    The functions that call them are written over this interface, and the
    properties of what they compute are proved at the instance of the
    reals, where the order is immaterial. *)
Class Reductions (T : Type) `{Scalar T} : Type := {
  norm : list T -> T;
  dot : matrix T -> matrix T -> matrix T
}.

Arguments Reductions T {_}.

#[export] Instance Reductions_R : Reductions R := {
  norm := fun r => R_sqrt.sqrt (sum (map (fun x => Rmult x x) r));
  dot := fun A B =>
    map (fun row =>
           map (fun j => sum (zip_with Rmult row (column j B)))
               (seq 0 (ncols B)))
        A
}.

(** ** CalibratedSolver: [photometricStereo] (lines 27-50) *)

(** A two-dimensional array: its shape and its elements in row-major
    order ([ravel()]). *)
Record image (T : Type) : Type := {
  shape : nat * nat;
  ravel : list T
}.

Arguments shape {T} i.
Arguments ravel {T} i.

Fixpoint select {A : Type} (mask : list bool) (l : list A) : list A :=
  match mask, l with
  | m :: mask', x :: l' => if m then x :: select mask' l' else select mask' l'
  | _, _ => []
  end.

(** The number of selected positions, and of those before [j]. *)
Definition count_true (mask : list bool) : nat :=
  length (filter (fun m : bool => m) mask).

Definition rank_in (mask : list bool) (j : nat) : nat :=
  count_true (firstn j mask).

(** [out[:, mask] = vals] *)
Fixpoint scatter {A : Type} (mask : list bool) (vals out : list A) : list A :=
  match mask, out with
  | true :: mask', o :: out' =>
      match vals with
      | v :: vals' => v :: scatter mask' vals' out'
      | [] => o :: scatter mask' [] out'
      end
  | false :: mask', o :: out' => o :: scatter mask' vals out'
  | _, _ => out
  end.

(** [np.vstack(rows)]: no row, or rows of different lengths, is a
    [ValueError]. *)
Definition vstack {A : Type} (rows : list (list A)) : run (list (list A)) :=
  match rows with
  | [] => Raise ValueError
  | r :: rest =>
      if forallb (fun r' => length r' =? length r) rest
      then Done rows
      else Raise ValueError
  end.

(** [flat.reshape(3, w, h).swapaxes(0, 2)], for [flat] of shape 3 x (w*h)
    given by its columns: the vector at [(v, u)] is column [u * h + v]. *)
Definition reshape_swap {A : Type} (d : A) (w h : nat) (flat : list A)
  : list (list A) :=
  map (fun v => map (fun u => nth (u * h + v) flat d) (seq 0 w)) (seq 0 h).

Section Calibrated.
Context {T : Type} `{Scalar T}.
Local Open Scope scalar_scope.

(** [np.linalg.pinv(N)]: from the rows of [N] to the columns of its
    pseudo-inverse. *)
Variable pinv : list (vec3 T) -> list (vec3 T).
(** [np.linalg.lstsq(N, B)[0]]: from the rows of [N] and the n x k matrix
    [B] to the k columns of the least-squares solution. *)
Variable lstsq : list (vec3 T) -> matrix T -> list (vec3 T).

(** [rho = np.linalg.norm(N_i.dot( I ), axis=0)] with
    [N_i = np.linalg.pinv(N)]: the albedo of each pixel. *)
Definition albedo (N : list (vec3 T)) (I : matrix T) : list T :=
  let N_i := pinv N in
  map norm3 (dot_3n N_i I).

(** The array [output] of shape 3 x p, by its columns, before it is
    reshaped:
    <<
    output = np.zeros((3, I.shape[1]))
    rho = ...
    I = I / rho
    normals, residual, rank, s = np.linalg.lstsq(N, I[:, rho != 0].reshape(n, -1))
    output[:,rho != 0] = normals
    >> *)
Definition solve_normals (N : list (vec3 T)) (I : matrix T) : list (vec3 T) :=
  let output := repeat zero3 (ncols I) in
  let rho := albedo N I in
  let I' := map (fun row => zip_with s_div row rho) I in
  let mask := map (fun r => negb (s_eqb r s_zero)) rho in
  let normals := lstsq N (map (select mask) I') in
  scatter mask normals output.

(** The function takes the lighting vector of each image with the image
    (the script looks both up by file name).
    <<
    I = np.vstack(x.ravel() for x in images)
    N = np.vstack(lightning[x] for x in images_filenames)
    ...
    w, h = images[0].shape
    output = output.reshape(3, w, h).swapaxes(0, 2)
    return output
    >> *)
Definition photometricStereo (shots : list (vec3 T * image T))
  : run (normal_field T) :=
  let images := map snd shots in
  I <- vstack (map (@ravel T) images) ;;
  let N := map fst shots in
  let output := solve_normals N I in
  let '(w, h) := shape (hd {| shape := (0, 0); ravel := [] |} images) in
  Done (reshape_swap zero3 w h output).
End Calibrated.

(** ** UncalibratedFactorizer: [photometricStereoWithoutLightning]
       (lines 52-132)

    The function is embedded as a function of the images (the script
    reads each by its file name, line 54). *)

Fixpoint chunks {A : Type} (rows cols : nat) (flat : list A) : list (list A) :=
  match rows with
  | 0 => []
  | S r => firstn cols flat :: chunks r cols (skipn cols flat)
  end.

(** A sparse matrix of SciPy ([sparse.dok_matrix]), by its dense
    content. *)
Record dok_matrix (T : Type) : Type := { toarray : matrix T }.

Arguments toarray {T} d.

(** An array as line 79 can leave it: an array of numbers, or an array
    of Python objects, each the product [c * Vt] of a number [c] of the
    array [coefficients] with the sparse matrix [factor]. *)
Inductive ndarray (T : Type) : Type :=
| Numbers (m : matrix T)
| Objects (coefficients : matrix T) (factor : dok_matrix T).

Arguments Numbers {T} m.
Arguments Objects {T} coefficients factor.

Section Uncalibrated.
Context {T : Type} `{Scalar T} `{!Reductions T}.
Local Open Scope scalar_scope.

(** [np.linalg.svd(M)]: [(U, s, Vh)] with [M = U diag(s) Vh]. *)
Variable svd : matrix T -> matrix T * list T * matrix T.
(** [np.linalg.eigvals(B)] *)
Variable eigvals : matrix T -> list T.
(** [np.linalg.eig(B)]: the eigenvalues and the matrix whose columns are
    the eigenvectors. *)
Variable eig : matrix T -> list T * matrix T.

(** [np.take(S, idx, axis=0)] *)
Fixpoint take_rows (S : matrix T) (idx : list nat) : run (matrix T) :=
  match idx with
  | [] => Done []
  | i :: idx' =>
      match nth_error S i with
      | Some r => rs <- take_rows S idx' ;; Done (r :: rs)
      | None => Raise IndexError
      end
  end.

(** [np.average(l)] *)
Definition average (l : list T) : T := sum l / s_of_nat (length l).

(** <<
    S_norms = np.linalg.norm(S, axis=1)
    S[0,:] *= np.average(S_norms[1:]) / S_norms[0]
    >>
    for an array [S] of numbers. *)
Definition normalise_S (S : matrix T) : run (matrix T) :=
  let S_norms := map norm S in
  match S, S_norms with
  | r0 :: rest, n0 :: ns =>
      Done (map (fun x => x * (average ns / n0)) r0 :: rest)
  | _, _ => Raise IndexError
  end.

(** [row[k:] *= 2] *)
Definition double_from (k : nat) (row : list T) : list T :=
  firstn k row ++ map (fun x => x * s_two) (skipn k row).

(** <<
    Q1 = np.take(S, (0, 1, 2, 3, 0, 0, 0, 1, 1, 2), axis=0)
    Q2 = np.take(S, (0, 1, 2, 3, 1, 2, 3, 2, 3, 3), axis=0)
    Q = Q1 * Q2
    Q[:,4:] *= 2
    Q = np.transpose(Q)
    >> *)
Definition build_Q (S : matrix T) : run (matrix T) :=
  Q1 <- take_rows S [0; 1; 2; 3; 0; 0; 0; 1; 1; 2] ;;
  Q2 <- take_rows S [0; 1; 2; 3; 1; 2; 3; 2; 3; 3] ;;
  let Q := gmap2 s_mul Q1 Q2 in
  let Q := map (double_from 4) Q in
  Done (swapaxes01 s_zero Q).

(** [b = VQ[:,9]], from the result of [np.linalg.svd(Q)]. *)
Definition b_of_svd (usv : matrix T * list T * matrix T) : list T :=
  let '(UQ, SQ, VQ) := usv in column 9 VQ.

(** [np.take(b.flat, idx)] *)
Definition take_flat (b : list T) (idx : list nat) : list T :=
  map (fun i => nth i b s_zero) idx.

(** <<
    B = np.take(b.flat, (0, 4, 5, 6,
                         4, 1, 7, 8,
                         5, 7, 2, 9,
                         6, 8, 9, 3)).reshape((4, 4))
    >> *)
Definition unpack_B (b : list T) : matrix T :=
  chunks 4 4 (take_flat b [0; 4; 5; 6;
                           4; 1; 7; 8;
                           5; 7; 2; 9;
                           6; 8; 9; 3]).

(** [np.sign] *)
Definition sign (x : T) : T :=
  if s_ltb x s_zero then - s_one
  else if s_ltb s_zero x then s_one
  else if s_eqb x s_zero then s_zero
  else x.

(** [np.diag(v)] *)
Definition diag (v : list T) : matrix T :=
  map (fun i => map (fun j => if i =? j then nth i v s_zero else s_zero)
                    (seq 0 (length v)))
      (seq 0 (length v)).

Definition nb_eig_sn_positive (B_eig : list T) : T :=
  sum (filter (fun s => s_ltb s_zero s) (map sign B_eig)).

Definition nb_eig_sn_negative (B_eig : list T) : T :=
  sum (map s_abs (filter (fun s => s_ltb s s_zero) (map sign B_eig))).

(** [1 in (nb_eig_sn_positive, nb_eig_sn_negative)] *)
Definition separable (B_eig : list T) : bool :=
  s_eqb s_one (nb_eig_sn_positive B_eig)
  || s_eqb s_one (nb_eig_sn_negative B_eig).

(** <<
    B_eig = np.linalg.eigvals(B)
    B_eig_sn = np.sign(B_eig)
    nb_eig_sn_positive = np.sum(B_eig_sn[B_eig_sn>0])
    nb_eig_sn_negative = np.sum(np.abs(B_eig_sn[B_eig_sn<0]))
    if 1 in (nb_eig_sn_positive, nb_eig_sn_negative):
        if nb_eig_sn_positive == 1:
            B = -B
        Lambda, W = np.linalg.eig(B)
        Lambda = np.abs(np.diag(Lambda))
        A = np.sqrt( Lambda ).dot( W )
    else:
        UB, SB, VB = np.linalg.svd(B)
        A = UB.dot ( VB )
    >> *)
Definition flip_B (B : matrix T) : matrix T :=
  if s_eqb (nb_eig_sn_positive (eigvals B)) s_one then gmap s_neg B else B.

Definition construct_A (B : matrix T) : matrix T :=
  let B_eig := eigvals B in
  if separable B_eig then
    let B := flip_B B in
    let '(Lambda, W) := eig B in
    let Lambda := gmap s_abs (diag Lambda) in
    dot (gmap s_sqrt Lambda) W
  else
    let '(UB, SB, VB) := svd B in
    dot UB VB.

(** The columns of a matrix of three rows, as 3-vectors. *)
Definition columns3 (M : matrix T) : list (vec3 T) :=
  map (fun j => (nth j (nth 0 M []) s_zero,
                 nth j (nth 1 M []) s_zero,
                 nth j (nth 2 M []) s_zero))
      (seq 0 (ncols M)).

(** [np.linalg.svd(M, full_matrices=False)]: [(U, s, Vh)], or nothing
    when the computation does not converge, which is a [LinAlgError]. *)
Variable svd_reduced : matrix T -> option (matrix T * list T * matrix T).

(** The exception that ends the run on a single image, where line 84
    averages an empty array of objects; it is not the same in every
    release of NumPy. *)
Variable single_image_error : exn.

(** [Vt.diagonal()] *)
Definition sparse_diagonal (Vt : dok_matrix T) : list T :=
  let M := toarray Vt in
  map (fun i => nth i (nth i M []) s_zero)
      (seq 0 (Nat.min (length M) (ncols M))).

(** [Vt.resize((N, N))] *)
Definition sparse_resize (N : nat) (Vt : dok_matrix T) : dok_matrix T :=
  {| toarray :=
       map (fun i => map (fun j => nth j (nth i (toarray Vt) []) s_zero)
                         (seq 0 N))
           (seq 0 N) |}.

(** [Vt.setdiag(values)] *)
Definition setdiag (values : list T) (Vt : dok_matrix T) : dok_matrix T :=
  let M := toarray Vt in
  {| toarray :=
       map (fun i =>
              map (fun j => if (i =? j) && (i <? length values)
                            then nth i values s_zero
                            else nth j (nth i M []) s_zero)
                  (seq 0 (ncols M)))
           (seq 0 (length M)) |}.

(** An array of shape [src] can be assigned to a slice of shape [dst]
    when each of its dimensions is that of the slice, or 1. *)
Definition broadcastable (src dst : nat * nat) : bool :=
  ((fst src =? fst dst) || (fst src =? 1))
  && ((snd src =? snd dst) || (snd src =? 1)).

(** <<
    delta = np.zeros((f, n))
    delta[:,:delta_vals.size] = np.diag(delta_vals)
    >>
    The slice has [f] rows and [min(k, n)] columns for the [k] singular
    values; the assignment of the [k x k] matrix is a [ValueError] when
    the shapes do not agree. *)
Definition fill_delta (f n : nat) (delta_vals : list T) : run (matrix T) :=
  let k := length delta_vals in
  let c := Nat.min k n in
  if broadcastable (k, k) (f, c) then
    Done (map (fun i =>
                 map (fun j =>
                        if j <? c then
                          nth (if k =? 1 then 0 else j)
                              (nth (if k =? 1 then 0 else i)
                                   (diag delta_vals) [])
                              s_zero
                        else s_zero)
                     (seq 0 n))
              (seq 0 f))
  else Raise ValueError.

(** [A.dot(Vt)] for an array [A] of numbers and a sparse matrix [Vt]:
    NumPy does not know the sparse matrix for a matrix and takes it for
    one Python object, a scalar; the result has the shape of [A] and
    holds the objects [A[i,j] * Vt]. *)
Definition dot_sparse (A : matrix T) (Vt : dok_matrix T) : ndarray T :=
  Objects A Vt.

(** Lines 83-84 on the array of line 79.  On an array of objects
    [np.linalg.norm(S, axis=1)] is an array of objects again, one sparse
    matrix per row of [S].  With two rows or more,
    [np.average(S_norms[1:])] adds sparse matrices and cannot convert
    their sum to a number: a [ValueError].  With one row it averages an
    empty array, and the run ends with [single_image_error]. *)
Definition normalise_S_array (S : ndarray T) : run (matrix T) :=
  match S with
  | Numbers m => normalise_S m
  | Objects coefficients _ =>
      if 2 <=? length coefficients then Raise ValueError
      else Raise single_image_error
  end.

(** <<
    f = len(images_filenames)
    n = images[0].size
    M = np.vstack(x.ravel() for x in images)
    U, delta_vals, Vt = np.linalg.svd(M, full_matrices=False)
    Vt = sparse.dok_matrix(Vt)
    diag = Vt.diagonal()
    Vt.resize((max(M.shape), max(M.shape)))
    Vt.setdiag(np.hstack((
        diag,
        np.ones((1, max(M.shape) - diag.size)).ravel(),
    )))
    delta = np.zeros((f, n))
    delta[:,:delta_vals.size] = np.diag(delta_vals)
    S = np.sqrt( delta[:4,:] ).dot ( Vt )
    S_norms = np.linalg.norm(S, axis=1)
    S[0,:] *= np.average(S_norms[1:]) / S_norms[0]
    ...
    UQ, SQ, VQ = np.linalg.svd(Q)
    b = VQ[:,9]
    ...
    import pdb; pdb.set_trace()
    structure = A.dot( S )
    normals = structure[1:,:]
    normals /= np.linalg.norm(normals, axis=0)
    w, h = images[0].shape
    normals = normals.reshape(3, w, h).swapaxes(0, 2)
    return normals
    >>
    [images[0]] of an empty list is an [IndexError]. *)
Definition photometricStereoWithoutLightning (images : list (image T))
  : run (normal_field T) :=
  match images with
  | [] => Raise IndexError
  | first :: _ =>
      let f := length images in
      let n := (fst (shape first) * snd (shape first))%nat in
      M <- vstack (map (@ravel T) images) ;;
      match svd_reduced M with
      | None => Raise LinAlgError
      | Some (U, delta_vals, Vt) =>
          let Vt := {| toarray := Vt |} in
          let diagonal := sparse_diagonal Vt in
          let N := Nat.max (length M) (ncols M) in
          let Vt := sparse_resize N Vt in
          let Vt :=
            setdiag (diagonal ++ repeat s_one (N - length diagonal)%nat) Vt in
          delta <- fill_delta f n delta_vals ;;
          let S := dot_sparse (gmap s_sqrt (firstn 4 delta)) Vt in
          S <- normalise_S_array S ;;
          Q <- build_Q S ;;
          let b := b_of_svd (svd Q) in
          let B := unpack_B b in
          let A := construct_A B in
          _ <- set_trace ;;
          let structure := dot A S in
          let normals := tl structure in
          let norms := map (fun j => norm (column j normals))
                           (seq 0 (ncols normals)) in
          let normals := map (fun row => zip_with s_div row norms) normals in
          let '(w, h) := shape first in
          Done (reshape_swap zero3 w h (columns3 normals))
      end
  end.
End Uncalibrated.

(** ** The command line: [main] (lines 184-204) *)

Record args : Type := {
  lightning : option String.string;
  image_names : list String.string;
  generate_map : bool
}.

Inductive action : Type :=
| SaveMap
| PrintUsage
| SaveOut.

(** <<
    if args.generate_map: ...; return
    if not (args.lightning and len(args.image) >= 3):
        print("Please specify a lightning file and 3+ image files.")
        return
    ...
    plt.imsave('out.png', color)
    >> *)
Definition main (a : args) : action :=
  if generate_map a then SaveMap
  else
    let has_lightning :=
      match lightning a with
      | Some String.EmptyString | None => false
      | Some _ => true
      end in
    if negb (has_lightning && (3 <=? length (image_names a)))
    then PrintUsage
    else SaveOut.

(** ** Files: [photometricStereo] by file name (lines 34-40) and the
       effects of [main] (lines 186-204)

    The files are read through two parameters: [getLightning] gives the
    dictionary of a lighting file, from image file names to lighting
    vectors, and [getImage] the array of an image file.  A file name
    that the dictionary does not hold is a [KeyError]. *)

Inductive outcome (A : Type) : Type :=
| Ran (r : run A)
| KeyError (key : String.string).

Arguments Ran {A} r.
Arguments KeyError {A} key.

(** What [main] reads and writes: the pickled field of [data.pkl] (absent
    when the file cannot be loaded), the arrays last saved as [map.png]
    and [out.png], and the lines printed. *)
Record files (T : Type) : Type := {
  data_pkl : option (normal_field T);
  map_png : option (normal_field T);
  out_png : option (normal_field T);
  printed : list String.string
}.

Arguments data_pkl {T} f.
Arguments map_png {T} f.
Arguments out_png {T} f.
Arguments printed {T} f.

Section Messages.
Import String.
Local Open Scope string_scope.
(** The line printed at line 192. *)
Definition usage : string :=
  "Please specify a lightning file and 3+ image files.".
End Messages.

Section Files.
Context {T : Type} `{Scalar T}.
Variable pinv : list (vec3 T) -> list (vec3 T).
Variable lstsq : list (vec3 T) -> matrix T -> list (vec3 T).
Variable getLightning : String.string -> String.string -> option (vec3 T).
Variable getImage : String.string -> image T.

(** [lightning[x] for x in images_filenames]: the first name without an
    entry is the key of the [KeyError]. *)
Fixpoint lookup_lights (lightning : String.string -> option (vec3 T))
  (names : list String.string) : list (vec3 T) + String.string :=
  match names with
  | [] => inl []
  | x :: names' =>
      match lightning x with
      | None => inr x
      | Some l =>
          match lookup_lights lightning names' with
          | inl N => inl (l :: N)
          | inr key => inr key
          end
      end
  end.

(** <<
    lightning = getLightning(lightning_filename)
    images = list(map(getImage, images_filenames))
    n = len(images_filenames)
    I = np.vstack(x.ravel() for x in images)
    output = np.zeros((3, I.shape[1]))
    N = np.vstack(lightning[x] for x in images_filenames)
    ...
    >> *)
Definition photometricStereo_files (lightning_filename : String.string)
  (images_filenames : list String.string) : outcome (normal_field T) :=
  let lightning := getLightning lightning_filename in
  let images := map getImage images_filenames in
  match vstack (map (@ravel T) images) with
  | Done I_ =>
      match lookup_lights lightning images_filenames with
      | inl N =>
          let output := solve_normals pinv lstsq N I_ in
          let '(w, h) :=
            shape (hd {| shape := (0, 0); ravel := [] |} images) in
          Ran (Done (reshape_swap zero3 w h output))
      | inr key => KeyError key
      end
  | failed => Ran (_ <- failed ;; Done [])
  end.

(** <<
    if args.generate_map:
        normals = generateNormalMap()
        plt.imsave('map.png', normals)
        return
    if not (args.lightning and len(args.image) >= 3):
        print("Please specify a lightning file and 3+ image files.")
        return
    try:
        with open('data.pkl', 'rb') as fhdl:
            normals = pickle.load(fhdl)
    except:
        normals = photometricStereo(args.lightning, args.image)
        with open('data.pkl', 'wb') as fhdl:
            pickle.dump(normals, fhdl)
    color = colorizeNormals(normals)
    plt.imsave('out.png', color)
    >> *)
Definition main_io (a : args) (fs : files T) : outcome (files T) :=
  match main a with
  | SaveMap =>
      let normals := generateNormalMap default_dims in
      Ran (Done {| data_pkl := data_pkl fs; map_png := Some normals;
                   out_png := out_png fs; printed := printed fs |})
  | PrintUsage =>
      Ran (Done {| data_pkl := data_pkl fs; map_png := map_png fs;
                   out_png := out_png fs;
                   printed := printed fs ++ [usage] |})
  | SaveOut =>
      match data_pkl fs with
      | Some normals =>
          let color := colorizeNormals normals in
          Ran (Done {| data_pkl := data_pkl fs; map_png := map_png fs;
                       out_png := Some color; printed := printed fs |})
      | None =>
          let name := match lightning a with
                      | Some name => name
                      | None => String.EmptyString
                      end in
          match photometricStereo_files name (image_names a) with
          | Ran r =>
              Ran (normals <- r ;;
                   let color := colorizeNormals normals in
                   Done {| data_pkl := Some normals; map_png := map_png fs;
                           out_png := Some color; printed := printed fs |})
          | KeyError key => KeyError key
          end
      end
  end.
End Files.

(** ** Reference linear algebra

    Exact-arithmetic stand-ins for the [numpy.linalg] routines, used to
    run the embedding on concrete inputs. *)

Section Reference.
Context {T : Type} `{Scalar T} `{!Reductions T}.
Local Open Scope scalar_scope.

(** The Moore-Penrose inverse of a symmetric positive semi-definite
    3 x 3 matrix [G] of rank 2: with [c1] the trace and [c2] the sum of
    the principal minors, [(c1 P - G) / c2] for the range projector
    [P = (c1 G - G^2) / c2]. *)
Definition pinv_rank2 (G : mat3 T) : mat3 T :=
  let c1 := trace3 G in
  let c2 := minors3 G in
  let P := mat3_scale (s_one / c2)
             (mat3_sub (mat3_scale c1 G) (mat3_mul G G)) in
  mat3_scale (s_one / c2) (mat3_sub (mat3_scale c1 P) G).

(** The Moore-Penrose inverse of a symmetric positive semi-definite
    3 x 3 matrix [G], by rank: the inverse when [det G <> 0], else
    [pinv_rank2 G] when [c2 <> 0], else [G / c1^2] (rank 1), or zero. *)
Definition pinv_sym3 (G : mat3 T) : mat3 T :=
  let c3 := det3 G in
  if negb (s_eqb c3 s_zero) then mat3_scale (s_one / c3) (adj3 G)
  else
    let c1 := trace3 G in
    let c2 := minors3 G in
    if negb (s_eqb c2 s_zero) then pinv_rank2 G
    else if negb (s_eqb c1 s_zero) then mat3_scale (s_one / (c1 * c1)) G
    else mat3_zero.

(** The four Penrose conditions for [X] (3 x n, by its columns) to be
    the pseudo-inverse of [N] (n x 3, by its rows): [N X N = N],
    [X N X = X], and [N X] and [X N] symmetric. *)
Definition is_pseudo_inverse (N X : list (vec3 T)) : Prop :=
  let NX := map (fun Ni => map (dot3 Ni) X) N in
  let XN := fold_left mat3_add (zip_with outer X N) mat3_zero in
  map (fun Ni => lincomb N (map (dot3 Ni) X)) N = N
  /\ map (fun Xk => lincomb X (map (fun Ni => dot3 Ni Xk) N)) X = X
  /\ swapaxes01 s_zero NX = NX
  /\ mat3_transpose XN = XN.

(** The 3 x 3 identity. *)
Definition mat3_one : mat3 T :=
  ((s_one, s_zero, s_zero), (s_zero, s_one, s_zero), (s_zero, s_zero, s_one)).

(** [N^+ = (N^T N)^+ N^T] *)
Definition pinv_ref (N : list (vec3 T)) : list (vec3 T) :=
  map (mat3_vec (pinv_sym3 (gram N))) N.

(** The least-squares solution of minimal norm, [N^+ B], column by
    column. *)
Definition lstsq_ref (N : list (vec3 T)) (B : matrix T) : list (vec3 T) :=
  map (fun j => mat3_vec (pinv_sym3 (gram N)) (lincomb N (column j B)))
      (seq 0 (ncols B)).

Definition diagonal (M : matrix T) : list T :=
  map (fun i => nth i (nth i M []) s_zero) (seq 0 (length M)).




(** [Q b] *)
Definition mat_vec (Q : matrix T) (b : list T) : list T :=
  map (fun row => sum (zip_with s_mul row b)) Q.




(** The row of [Q] that the comment of lines 88-89 gives for a column
    [q] of [S]:
    [(q_1^2, ... , q_4^2, 2 q_1 q_2, ... , 2 q_3 q_4)]. *)
Definition Q_row_documented (q : list T) : list T :=
  let q1 := nth 0 q s_zero in
  let q2 := nth 1 q s_zero in
  let q3 := nth 2 q s_zero in
  let q4 := nth 3 q s_zero in
  [q1 * q1; q2 * q2; q3 * q3; q4 * q4;
   q1 * q2 * s_two; q1 * q3 * s_two; q1 * q4 * s_two;
   q2 * q3 * s_two; q2 * q4 * s_two; q3 * q4 * s_two].

(** The ten products of a column [q], not doubled. *)
Definition Q_products (q : list T) : list T :=
  let q1 := nth 0 q s_zero in
  let q2 := nth 1 q s_zero in
  let q3 := nth 2 q s_zero in
  let q4 := nth 3 q s_zero in
  [q1 * q1; q2 * q2; q3 * q3; q4 * q4;
   q1 * q2; q1 * q3; q1 * q4; q2 * q3; q2 * q4; q3 * q4].

(** The row of [Q] that [build_Q] computes for pixel [j]. *)
Definition Q_row_computed (j : nat) (q : list T) : list T :=
  if j <? 4 then Q_products q
  else map (fun x => x * s_two) (Q_products q).
End Reference.

(** ** Concrete inputs *)

(** The two zeros of binary64. *)
Definition signed_zero (negative : bool) : float :=
  if negative then (-0)%float else 0%float.

Module Inputs.
Local Open Scope float_scope.


(** Two images of one pixel under the lights (1,0,0) and (0,1,0): a
    lighting matrix of rank 2. *)
Definition two_shots : list (vec3 float * image float) :=
  [((1, 0, 0), {| shape := (1%nat, 1%nat); ravel := [1] |});
   ((0, 1, 0), {| shape := (1%nat, 1%nat); ravel := [0] |})].

(** Three images of one pixel, of intensities 3, 5 and 7, under the
    lights (1,0,0), (0,1,0) and (0,0,1). *)
Definition unit_lights_shots : list (vec3 float * image float) :=
  [((1, 0, 0), {| shape := (1%nat, 1%nat); ravel := [3] |});
   ((0, 1, 0), {| shape := (1%nat, 1%nat); ravel := [5] |});
   ((0, 0, 1), {| shape := (1%nat, 1%nat); ravel := [7] |})].


(** Three one-pixel images of intensities 3, 0 and 4 under the lights
    (1,0,0), (0,1,0) and (0,0,1), over the reals. *)
Definition three_shots : list (vec3 R * image R) :=
  [((1, 0, 0)%R, {| shape := (1%nat, 1%nat); ravel := [3%R] |});
   ((0, 1, 0)%R, {| shape := (1%nat, 1%nat); ravel := [0%R] |});
   ((0, 0, 1)%R, {| shape := (1%nat, 1%nat); ravel := [4%R] |})].

(** Four images of 2 x 2 pixels, over the reals. *)
Definition four_images : list (image R) :=
  [{| shape := (2%nat, 2%nat); ravel := [16; 0; 0; 0]%R |};
   {| shape := (2%nat, 2%nat); ravel := [0; 9; 0; 0]%R |};
   {| shape := (2%nat, 2%nat); ravel := [0; 0; 5; 3]%R |};
   {| shape := (2%nat, 2%nat); ravel := [0; 0; 3; 5]%R |}].

(** The singular value decomposition of their stack: the singular
    values 16, 9, 8 and 2, with the right-singular vectors [e_0], [e_1],
    [(0,0,1,1) / sqrt 2] and [(0,0,1,-1) / sqrt 2]. *)
Definition svd_four_images : matrix R * list R * matrix R :=
  let r := (/ R_sqrt.sqrt 2)%R in
  ([[1; 0; 0; 0]; [0; 1; 0; 0]; [0; 0; r; r]; [0; 0; r; - r]]%R,
   [16; 9; 8; 2]%R,
   [[1; 0; 0; 0]; [0; 1; 0; 0]; [0; 0; r; r]; [0; 0; r; - r]]%R).

(** A pseudo-shape of four pixels with orthogonal rows.  [S_pair 4 3] is
    the matrix product [sqrt(delta) V^T] for the decomposition
    [svd_four_images]: the array that the comment of lines 62-64
    describes for the four images, and that line 79 would hold if its
    product were the matrix product.  [Q_pair a b] is the matrix [Q]
    built from [S_pair a b]. *)
Definition S_pair (a b : R) : matrix R :=
  [[a; 0; 0; 0]; [0; b; 0; 0]; [0; 0; 2; 2]; [0; 0; 1; -1]]%R.

Definition Q_pair (a b : R) : matrix R :=
  [[a * a; 0; 0; 0; 0; 0; 0; 0; 0; 0];
   [0; b * b; 0; 0; 0; 0; 0; 0; 0; 0];
   [0; 0; 4; 1; 0; 0; 0; 0; 0; 2];
   [0; 0; 4; 1; 0; 0; 0; 0; 0; -2]]%R.


(** The same decomposition with the singular values in the order
    [b^2], [sqrt 34], [a^2], [sqrt 8], which is non-increasing for
    [a = 1 + sqrt 2] and [b = 3], as [np.linalg.svd] returns them. *)
Definition svd_Q_sorted (a b : R) : matrix R * list R * matrix R :=
  let r := (/ R_sqrt.sqrt 2)%R in
  let t := (/ R_sqrt.sqrt 17)%R in
  ([[0; 0; 1; 0]; [1; 0; 0; 0]; [0; r; 0; r]; [0; r; 0; - r]]%R,
   [b * b; R_sqrt.sqrt 34; a * a; R_sqrt.sqrt 8]%R,
   [[0; 1; 0; 0; 0; 0; 0; 0; 0; 0];
    [0; 0; 4 * t; t; 0; 0; 0; 0; 0; 0];
    [1; 0; 0; 0; 0; 0; 0; 0; 0; 0];
    [0; 0; 0; 0; 0; 0; 0; 0; 0; 1];
    [0; 0; t; - (4 * t); 0; 0; 0; 0; 0; 0];
    [0; 0; 0; 0; 1; 0; 0; 0; 0; 0];
    [0; 0; 0; 0; 0; 1; 0; 0; 0; 0];
    [0; 0; 0; 0; 0; 0; 1; 0; 0; 0];
    [0; 0; 0; 0; 0; 0; 0; 1; 0; 0];
    [0; 0; 0; 0; 0; 0; 0; 0; 1; 0]]%R).

(** [b] for the symmetric matrix [diag(-1, 2, 3, 4)]: one negative
    eigenvalue, three positive. *)
Definition b_sep_R : list R := [-1; 2; 3; 4; 0; 0; 0; 0; 0; 0]%R.



(** A command line with a lighting file and two images. *)
Import String.
Local Open Scope string_scope.
End Inputs.

(** ** A command-line scene (binary64) *)

Module Scene.
Import String.
Local Open Scope string_scope.
Local Open Scope float_scope.

(** A lighting file for three images, and three images of one pixel. *)
Definition lights (file name : string) : option (vec3 float) :=
  if (name =? "a.png")%string then Some (1, 0, 0)
  else if (name =? "b.png")%string then Some (0, 1, 0)
  else if (name =? "c.png")%string then Some (0, 0, 1)
  else None.

Definition pixels (name : string) : image float :=
  {| shape := (1%nat, 1%nat);
     ravel := [if (name =? "a.png")%string then 1 else 0] |}.

Definition three_image_args : args :=
  {| lightning := Some "lights.json";
     image_names := ["a.png"; "b.png"; "c.png"];
     generate_map := false |}.

(** Another command line: images that the lighting file does not hold. *)
Definition other_args : args :=
  {| lightning := Some "other.json";
     image_names := ["x.png"; "y.png"; "z.png"; "w.png"];
     generate_map := false |}.

Definition lights_json : string := "lights.json".

(** A command line with [--generate-map] that names files as well. *)
Definition map_args : args :=
  {| lightning := Some "lights.json";
     image_names := ["a.png"; "b.png"; "c.png"];
     generate_map := true |}.

Definition no_files : files float :=
  {| data_pkl := None; map_png := None; out_png := None; printed := [] |}.

Definition after_first_run : files float :=
  {| data_pkl := Some [[(1, 0, 0)]]; map_png := None;
     out_png := Some [[(1, 0.5, 0.5)]]; printed := [] |}.

(** The files after a run with [--generate-map] that follows. *)
Definition after_map_run : files float :=
  {| data_pkl := Some [[(1, 0, 0)]];
     map_png := Some (generateNormalMap default_dims);
     out_png := Some [[(1, 0.5, 0.5)]]; printed := [] |}.
End Scene.

(** ** Proof automation *)

(** Equality of two 3-vectors, component by component. *)
Ltac vec3_eq := unfold zero3; simpl; apply f_equal2; [apply f_equal2 |].

(** Equality of two lists of known length, element by element. *)
Ltac list_eq :=
  repeat match goal with
    | |- _ :: _ = _ :: _ => apply f_equal2
    | |- [] = [] => reflexivity
    end.

(** Case analysis on the decisions of the real instance. *)
Ltac decide_R :=
  repeat match goal with
    | |- context [Rcase_abs ?a] => destruct (Rcase_abs a); try (exfalso; lra)
    | |- context [Rlt_dec ?a ?b] => destruct (Rlt_dec a b); try (exfalso; lra)
    | |- context [Rle_dec ?a ?b] => destruct (Rle_dec a b); try (exfalso; lra)
    | |- context [Req_dec_T ?a ?b] =>
        destruct (Req_dec_T a b); try (exfalso; lra)
    end.

(** * Properties *)

(** ** Lists and grids *)

Lemma nth_error_zip_with {A B C : Type} (f : A -> B -> C) l1 l2 i :
  nth_error (zip_with f l1 l2) i =
  match nth_error l1 i, nth_error l2 i with
  | Some a, Some b => Some (f a b)
  | _, _ => None
  end.
Proof.
  revert l2 i; induction l1 as [|a l1 IH]; intros [|b l2] [|i]; simpl; auto.
  destruct (nth_error l1 i); reflexivity.
Qed.

Lemma zip_with_map_same {A B C D : Type} (f : B -> C -> D) (g : A -> B)
  (h : A -> C) l :
  zip_with f (map g l) (map h l) = map (fun x => f (g x) (h x)) l.
Proof. induction l; simpl; congruence. Qed.

Lemma zip_with_map_r {A B C : Type} (f : A -> B -> C) (h : A -> B) l :
  zip_with f l (map h l) = map (fun x => f x (h x)) l.
Proof. induction l; simpl; congruence. Qed.

Lemma length_zip_with {A B C : Type} (f : A -> B -> C) l1 l2 :
  length (zip_with f l1 l2) = Nat.min (length l1) (length l2).
Proof. revert l2; induction l1; intros [|b l2]; simpl; auto. Qed.

Lemma nth_map_in_range {A B : Type} (f : A -> B) l j da db :
  j < length l -> nth j (map f l) db = f (nth j l da).
Proof.
  intros Hj. rewrite (nth_indep _ db (f da)) by now rewrite length_map.
  apply map_nth.
Qed.

Lemma grid_at_gmap {A B : Type} (f : A -> B) g a b :
  grid_at (gmap f g) a b = option_map f (grid_at g a b).
Proof.
  unfold grid_at, gmap. rewrite nth_error_map.
  destruct (nth_error g a); simpl; auto using nth_error_map.
Qed.

Lemma grid_at_gmap2 {A B C : Type} (f : A -> B -> C) g1 g2 a b :
  grid_at (gmap2 f g1 g2) a b =
  match grid_at g1 a b, grid_at g2 a b with
  | Some x, Some y => Some (f x y)
  | _, _ => None
  end.
Proof.
  unfold grid_at, gmap2. rewrite nth_error_zip_with.
  destruct (nth_error g1 a) as [r1|], (nth_error g2 a) as [r2|]; auto.
  - apply nth_error_zip_with.
  - destruct (nth_error r1 b); reflexivity.
Qed.

Lemma gmap_tab {A B C D : Type} (f : C -> D) (l1 : list A) (l2 : list B) F :
  gmap f (tab l1 l2 F) = tab l1 l2 (fun r c => f (F r c)).
Proof.
  unfold gmap, tab. rewrite map_map. apply map_ext; intros r.
  now rewrite map_map.
Qed.

Lemma gmap2_tab {A B C D E : Type} (f : C -> D -> E) (l1 : list A)
  (l2 : list B) F G :
  gmap2 f (tab l1 l2 F) (tab l1 l2 G) = tab l1 l2 (fun r c => f (F r c) (G r c)).
Proof.
  unfold gmap2, tab. rewrite zip_with_map_same. apply map_ext; intros r.
  apply zip_with_map_same.
Qed.

Lemma grid_at_tab {A B C : Type} (l1 : list A) (l2 : list B) (F : A -> B -> C)
  a b :
  grid_at (tab l1 l2 F) a b =
  match nth_error l1 a, nth_error l2 b with
  | Some r, Some c => Some (F r c)
  | _, _ => None
  end.
Proof.
  unfold grid_at, tab. rewrite nth_error_map.
  destruct (nth_error l1 a) as [r|]; simpl; auto.
  rewrite nth_error_map. destruct (nth_error l2 b); reflexivity.
Qed.

Lemma grid_at_swapaxes01_tab {A B C : Type} (d : C) (l1 : list A)
  (l2 : list B) (F : A -> B -> C) a b r c :
  nth_error l1 b = Some r -> nth_error l2 a = Some c ->
  grid_at (swapaxes01 d (tab l1 l2 F)) a b = Some (F r c).
Proof.
  intros Hb Ha. unfold grid_at, swapaxes01.
  assert (Hlen : length (hd [] (tab l1 l2 F)) = length l2).
  { destruct l1; [destruct b; discriminate|]. simpl. apply length_map. }
  rewrite Hlen, nth_error_map, nth_error_seq.
  assert (a < length l2) as Hlt by (apply nth_error_Some; congruence).
  apply Nat.ltb_lt in Hlt. rewrite Hlt. simpl.
  unfold tab. rewrite map_map, nth_error_map, Hb. simpl.
  f_equal. apply nth_error_nth. now rewrite nth_error_map, Ha.
Qed.

(** ** NormalColorizer *)

Section ColorizerFacts.
Context {T : Type} `{Scalar T}.

Lemma colorizeNormals_pointwise (normals : normal_field T) :
  colorizeNormals normals = gmap colorize normals.
Proof.
  unfold colorizeNormals, gmap2, gmap.
  rewrite !map_map, zip_with_map_r, map_map.
  apply map_ext; intros row.
  rewrite !map_map, zip_with_map_r, map_map.
  apply map_ext; intros [[x y] z]. reflexivity.
Qed.

Lemma colorizeNormals_at (normals : normal_field T) a b :
  grid_at (colorizeNormals normals) a b
  = option_map colorize (grid_at normals a b).
Proof. rewrite colorizeNormals_pointwise. apply grid_at_gmap. Qed.
End ColorizerFacts.

(** Over the reals the norm of a scaled vector is the scaled norm. *)
Lemma norm3_scale3_R (k : R) (v : vec3 R) :
  (0 <= k)%R -> norm3 (scale3 k v) = (k * norm3 v)%R.
Proof.
  intros Hk. destruct v as [[x y] z]. simpl.
  replace (k * x * (k * x) + k * y * (k * y) + k * z * (k * z))%R
    with ((k * k) * (x * x + y * y + z * z))%R by ring.
  rewrite sqrt_mult; [| nra | nra].
  now rewrite sqrt_square.
Qed.

Lemma colorize_scale_R (k : R) (v : vec3 R) :
  (0 < k)%R -> norm3 v <> 0%R -> colorize (scale3 k v) = colorize v.
Proof.
  intros Hk Hn. unfold colorize.
  rewrite norm3_scale3_R by lra.
  destruct v as [[x y] z]. set (n := norm3 (x, y, z)) in *.
  simpl. f_equal; [f_equal|]; f_equal; f_equal; field; split; lra.
Qed.

(** At binary64 the colours of (1,1,2) and of its triple differ in the
    last channel, by one unit in the last place; and scaling (1,0,0) by
    [2^-600] gives a vector whose computed norm is 0, and the colour
    (infinity, NaN, NaN) instead of (1, 0.5, 0.5). *)
Example colorizeNormals_binary64_scaling :
  colorizeNormals (gmap (scale3 3) [[(1, 1, 2)]])%float
  = [[(0x1.6882f5c030b1p-1, 0x1.6882f5c030b1p-1,
       0x1.d105eb806161fp-1)]]%float
  /\ colorizeNormals [[(1, 1, 2)]]%float
     = [[(0x1.6882f5c030b1p-1, 0x1.6882f5c030b1p-1,
          0x1.d105eb806162p-1)]]%float
  /\ colorizeNormals (gmap (scale3 0x1p-600) [[(1, 0, 0)]])%float
     = [[(infinity, nan, nan)]]
  /\ colorizeNormals [[(1, 0, 0)]]%float = [[(1, 0.5, 0.5)]]%float.
Proof. repeat split; vm_compute; reflexivity. Qed.

(** C9 (as the code behaves): over the reals [colorizeNormals] is
    scale-invariant: scaling every vector of an array whose vectors all
    have a nonzero norm by a positive [k] leaves the colour at every
    position unchanged.  At binary64 it is not: the colours of (1,1,2)
    and of its triple differ in the last channel. *)
Theorem colorizeNormals_scale_invariant (normals : normal_field R) (k : R) :
  (0 < k)%R ->
  (forall a b v, grid_at normals a b = Some v -> norm3 v <> 0%R) ->
  (forall a b,
      grid_at (colorizeNormals (gmap (scale3 k) normals)) a b
      = grid_at (colorizeNormals normals) a b)
  /\ colorizeNormals (gmap (scale3 3) [[(1, 1, 2)]])%float
     = [[(0x1.6882f5c030b1p-1, 0x1.6882f5c030b1p-1,
          0x1.d105eb806161fp-1)]]%float
  /\ colorizeNormals [[(1, 1, 2)]]%float
     = [[(0x1.6882f5c030b1p-1, 0x1.6882f5c030b1p-1,
          0x1.d105eb806162p-1)]]%float.
Proof.
  intros Hk Hnz. split.
  - intros a b.
    rewrite !colorizeNormals_at, grid_at_gmap.
    destruct (grid_at normals a b) as [v|] eqn:Hv; simpl; auto.
    f_equal. apply colorize_scale_R; eauto.
  - split; apply colorizeNormals_binary64_scaling.
Qed.

Lemma colorizeNormals_scale_invariant_witness :
  (forall a b,
      grid_at (colorizeNormals (gmap (scale3 2%R) [[(3, 0, 4)%R]])) a b
      = grid_at (colorizeNormals [[(3, 0, 4)%R]]) a b)
  /\ colorizeNormals (gmap (scale3 3) [[(1, 1, 2)]])%float
     = [[(0x1.6882f5c030b1p-1, 0x1.6882f5c030b1p-1,
          0x1.d105eb806161fp-1)]]%float
  /\ colorizeNormals [[(1, 1, 2)]]%float
     = [[(0x1.6882f5c030b1p-1, 0x1.6882f5c030b1p-1,
          0x1.d105eb806162p-1)]]%float.
Proof.
  apply (@colorizeNormals_scale_invariant [[(3, 0, 4)%R]] 2%R).
  - lra.
  - intros [|a] [|b] v Hv; try (destruct a; discriminate);
      try (destruct b; discriminate); try discriminate.
    injection Hv as <-. simpl. intros H0.
    apply sqrt_eq_0 in H0; lra.
Defined.

(** C9, the claim as stated fails at binary64.  The colours of (1,1,2)
    and of its triple differ in the last channel, by one unit in the
    last place; and scaling (1,0,0) by [2^-600] gives a vector whose
    computed norm is 0, and the colour (infinity, NaN, NaN) instead of
    (1, 0.5, 0.5). *)
Lemma colorizeNormals_scale_counterexample :
  colorizeNormals (gmap (scale3 3) [[(1, 1, 2)]])%float
  = [[(0x1.6882f5c030b1p-1, 0x1.6882f5c030b1p-1,
       0x1.d105eb806161fp-1)]]%float
  /\ colorizeNormals [[(1, 1, 2)]]%float
     = [[(0x1.6882f5c030b1p-1, 0x1.6882f5c030b1p-1,
          0x1.d105eb806162p-1)]]%float
  /\ colorizeNormals (gmap (scale3 0x1p-600) [[(1, 0, 0)]])%float
     = [[(infinity, nan, nan)]]
  /\ colorizeNormals [[(1, 0, 0)]]%float = [[(1, 0.5, 0.5)]]%float.
Proof. exact colorizeNormals_binary64_scaling. Qed.

(** C6 (as the code behaves): [colorizeNormals] raises nothing, and at a
    position that holds the zero vector (each component one of the two
    zeros of binary64) its value is NaN in all three channels, the result
    of 0/0; it is not the zero vector. *)
Theorem colorizeNormals_zero_is_nan (normals : normal_field float) a b sx sy sz :
  grid_at normals a b = Some (signed_zero sx, signed_zero sy, signed_zero sz) ->
  grid_at (colorizeNormals normals) a b = Some (nan, nan, nan).
Proof.
  intros Hv. rewrite colorizeNormals_at, Hv.
  destruct sx, sy, sz; vm_compute; reflexivity.
Qed.

Lemma colorizeNormals_zero_is_nan_witness :
  grid_at (colorizeNormals [[(0, 0, 0)%float]]) 0 0 = Some (nan, nan, nan).
Proof.
  apply (@colorizeNormals_zero_is_nan [[(0, 0, 0)%float]] 0 0 false false false).
  reflexivity.
Defined.

(** C6, the claim as stated fails: the zero vector is not sent to the zero
    vector. *)
Lemma colorizeNormals_zero_counterexample :
  colorizeNormals [[(0, 0, 0)%float]] = [[(nan, nan, nan)]].
Proof. vm_compute. reflexivity. Qed.

(** ** SphereNormalGenerator *)

Section SphereFacts.
Context {T : Type} `{Scalar T}.

Lemma linspace_unfold (start stop : T) n :
  linspace start stop (S (S n))
  = map (fun i => s_of_nat i * ((stop - start) / s_of_nat (S n)) + start)%S
        (seq 0 (S n)) ++ [stop].
Proof.
  unfold linspace, set_last.
  replace (S (S n) - 1) with (S n) by lia.
  rewrite (seq_S (S n) 0), map_app.
  change (map ?f [?x]) with [f x].
  rewrite removelast_last.
  destruct (map _ (seq 0 (S n)) ++ _) eqn:E; auto.
  apply (f_equal (@length T)) in E. rewrite length_app in E.
  simpl in E. lia.
Qed.

Lemma length_linspace (start stop : T) num :
  length (linspace start stop num) = num.
Proof.
  destruct num as [|[|n]]; auto.
  rewrite linspace_unfold, length_app, length_map, length_seq.
  simpl. lia.
Qed.

Lemma nth_error_linspace_inner (start stop : T) num i :
  i + 1 < num ->
  nth_error (linspace start stop num) i
  = Some (s_of_nat i * ((stop - start) / s_of_nat (num - 1)) + start)%S.
Proof.
  intros Hi. destruct num as [|[|n]]; try lia.
  rewrite linspace_unfold.
  rewrite nth_error_app1 by (rewrite length_map, length_seq; lia).
  rewrite nth_error_map, nth_error_seq.
  replace (i <? S n) with true by (symmetry; apply Nat.ltb_lt; lia).
  simpl. reflexivity.
Qed.

Lemma nth_error_linspace_last (start stop : T) num :
  2 <= num -> nth_error (linspace start stop num) (num - 1) = Some stop.
Proof.
  intros Hn. destruct num as [|[|n]]; try lia.
  rewrite linspace_unfold.
  rewrite nth_error_app2 by (rewrite length_map, length_seq; lia).
  rewrite length_map, length_seq.
  replace (S (S n) - 1 - S n) with 0 by lia. reflexivity.
Qed.

(** The arrays of [sphereNormals] as functions of the grid labels. *)
Lemma sphereNormals_tab dims :
  let lin := linspace (- s_one)%S s_one dims in
  sphereNormals dims
  = (tab lin lin (fun r c => s_leb s_zero (s_one - c * c - r * r)%S),
     swapaxes01 zero3 (tab lin lin (fun r c => normal_at c r))).
Proof.
  intros lin. unfold sphereNormals, meshgrid. fold lin.
  change (map (fun y => map (fun _ : T => y) lin) lin)
    with (tab lin lin (fun (r c : T) => r)).
  replace (map (fun _ : T => lin) lin)
    with (tab lin lin (fun (r c : T) => c))
    by (unfold tab; apply map_ext; intros; apply map_id).
  cbv zeta.
  rewrite !gmap_tab, !gmap2_tab, !gmap_tab, !gmap2_tab.
  reflexivity.
Qed.

Lemma sphereNormals_at dims a b x y :
  let lin := linspace (- s_one)%S s_one dims in
  nth_error lin a = Some x -> nth_error lin b = Some y ->
  grid_at (snd (sphereNormals dims)) a b = Some (normal_at x y).
Proof.
  intros lin Ha Hb. rewrite sphereNormals_tab. simpl snd.
  now apply grid_at_swapaxes01_tab with (r := y) (c := x).
Qed.

Lemma generateNormalMap_at dims a b x y :
  let lin := linspace (- s_one)%S s_one dims in
  nth_error lin a = Some x -> nth_error lin b = Some y ->
  grid_at (generateNormalMap dims) a b
  = Some (if s_leb s_zero (s_one - y * y - x * x)%S
          then colorize (normal_at x y) else zero3).
Proof.
  intros lin Ha Hb. unfold generateNormalMap.
  rewrite sphereNormals_tab. fold lin.
  rewrite grid_at_gmap2, grid_at_tab, colorizeNormals_at.
  rewrite (@grid_at_swapaxes01_tab _ _ _ _ _ _ _ _ _ _ _ Hb Ha).
  rewrite Ha, Hb. reflexivity.
Qed.
End SphereFacts.

(** On the grid of an odd resolution [2 m + 1] the point of index [m] is
    the origin. *)
Lemma linspace_centre_R (m : nat) :
  1 <= m -> nth_error (linspace (-1)%R 1%R (2 * m + 1)) m = Some 0%R.
Proof.
  intros Hm.
  rewrite (nth_error_linspace_inner (T := R)) by lia.
  f_equal. simpl.
  replace (m + (m + 0) + 1 - 1) with (2 * m) by lia.
  rewrite mult_INR. simpl (INR 2).
  assert (INR m <> 0%R) by (apply not_0_INR; lia).
  field. assumption.
Qed.

Lemma normal_at_origin_R : normal_at 0%R 0%R = (0, 0, 1)%R.
Proof.
  unfold normal_at. simpl.
  destruct (Rle_dec 0 (1 - 0 * 0 - 0 * 0)) as [_|Hn]; [|exfalso; lra].
  replace (1 - 0 * 0 - 0 * 0)%R with 1%R by ring.
  now rewrite sqrt_1, Ropp_0.
Qed.

Lemma colorize_pole_R : colorize (0, 0, 1)%R = (1 / 2, 1 / 2, 1)%R.
Proof.
  unfold colorize. simpl.
  replace (0 * 0 + 0 * 0 + 1 * 1)%R with 1%R by ring.
  rewrite sqrt_1. f_equal; [f_equal|]; field.
Qed.

(** At binary64 the centre of the grid is the origin for the
    resolutions 3 and 601. *)
Example generateNormalMap_centre_float :
  grid_at (generateNormalMap (T := float) 3) 1 1
  = Some (0.5, 0.5, 1)%float
  /\ grid_at (generateNormalMap (T := float) 601) 300 300
     = Some (0.5, 0.5, 1)%float.
Proof.
  split.
  - vm_compute. reflexivity.
  - erewrite generateNormalMap_at by (vm_compute; reflexivity).
    vm_compute. reflexivity.
Qed.

(** It is not for the resolution 99: [linspace(-1, 1, 99)[49]] is
    [-2^-53]. *)
Example generateNormalMap_centre_float_99 :
  nth_error (linspace (-1) 1 99)%float 49 = Some (-0x1p-53)%float
  /\ grid_at (snd (sphereNormals (T := float) 99)) 49 49
     = Some (-0x1p-53, 0x1p-53, 1)%float
  /\ grid_at (generateNormalMap (T := float) 99) 49 49
     = Some (0x1.fffffffffffffp-2, 0.5, 1)%float.
Proof.
  split; [vm_compute; reflexivity|]. split.
  - erewrite sphereNormals_at by (vm_compute; reflexivity).
    vm_compute. reflexivity.
  - erewrite generateNormalMap_at by (vm_compute; reflexivity).
    vm_compute. reflexivity.
Qed.

(** C7 (as the code behaves): over the reals, for every odd resolution
    [2 m + 1] with [m >= 1] the grid has a centre point, of index
    [(m, m)]; the normal computed there is (0,0,1) and the colour
    returned there is (0.5, 0.5, 1.0).  At binary64 the colour of the
    centre is (0.5, 0.5, 1.0) for the resolutions 3 and 601, and it is
    not for every odd resolution: for 99 the normal computed at the
    centre is [(-2^-53, 2^-53, 1)] and the colour
    (0.49999999999999994, 0.5, 1.0). *)
Theorem generateNormalMap_centre_odd (m : nat) :
  1 <= m ->
  (grid_at (snd (sphereNormals (T := R) (2 * m + 1))) m m = Some (0, 0, 1)%R
   /\ grid_at (generateNormalMap (T := R) (2 * m + 1)) m m
      = Some (1 / 2, 1 / 2, 1)%R)
  /\ (grid_at (generateNormalMap (T := float) 3) 1 1
      = Some (0.5, 0.5, 1)%float
      /\ grid_at (generateNormalMap (T := float) 601) 300 300
         = Some (0.5, 0.5, 1)%float)
  /\ (grid_at (snd (sphereNormals (T := float) 99)) 49 49
      = Some (-0x1p-53, 0x1p-53, 1)%float
      /\ grid_at (generateNormalMap (T := float) 99) 49 49
         = Some (0x1.fffffffffffffp-2, 0.5, 1)%float).
Proof.
  intros Hm. pose proof (linspace_centre_R Hm) as Hc.
  split; [split|split].
  - rewrite (@sphereNormals_at _ _ _ _ _ _ _ Hc Hc). f_equal.
    apply normal_at_origin_R.
  - rewrite (@generateNormalMap_at _ _ _ _ _ _ _ Hc Hc).
    rewrite normal_at_origin_R, colorize_pole_R. simpl.
    destruct (Rle_dec 0 (1 - 0 * 0 - 0 * 0)) as [_|Hn]; [reflexivity|].
    exfalso; lra.
  - exact generateNormalMap_centre_float.
  - exact (proj2 generateNormalMap_centre_float_99).
Qed.

Lemma generateNormalMap_centre_odd_witness :
  (grid_at (snd (sphereNormals (T := R) (2 * 1 + 1))) 1 1 = Some (0, 0, 1)%R
   /\ grid_at (generateNormalMap (T := R) (2 * 1 + 1)) 1 1
      = Some (1 / 2, 1 / 2, 1)%R)
  /\ (grid_at (generateNormalMap (T := float) 3) 1 1
      = Some (0.5, 0.5, 1)%float
      /\ grid_at (generateNormalMap (T := float) 601) 300 300
         = Some (0.5, 0.5, 1)%float)
  /\ (grid_at (snd (sphereNormals (T := float) 99)) 49 49
      = Some (-0x1p-53, 0x1p-53, 1)%float
      /\ grid_at (generateNormalMap (T := float) 99) 49 49
         = Some (0x1.fffffffffffffp-2, 0.5, 1)%float).
Proof. apply (@generateNormalMap_centre_odd 1). lia. Defined.

(** The grid of the default resolution has no point on either axis: no
    abscissa of [linspace(-1, 1, 600)] is zero. *)
Lemma default_grid_misses_zero (a : nat) :
  nth_error (linspace (-1)%R 1%R default_dims) a <> Some 0%R.
Proof.
  unfold default_dims.
  destruct (Nat.lt_ge_cases (a + 1) 600) as [Hlt|Hge].
  - rewrite (nth_error_linspace_inner (T := R)) by assumption.
    intros Heq. injection Heq as Heq.
    change (INR a * ((1 - -1) / INR 599) + -1 = 0)%R in Heq.
    remember (INR 599) as d eqn:Hd.
    assert (Hd0 : d <> 0%R) by (subst d; apply not_0_INR; lia).
    assert (H2 : INR (2 * a) = d).
    { rewrite mult_INR. replace (INR 2) with 2%R by (simpl; lra).
      apply Rmult_eq_reg_r with (r := (/ d)%R);
        [| now apply Rinv_neq_0_compat].
      rewrite Rinv_r by assumption.
      transitivity (INR a * ((1 - -1) / d) + -1 + 1)%R;
        [unfold Rdiv; ring | rewrite Heq; ring]. }
    subst d.
    apply INR_eq in H2. lia.
  - destruct (Nat.eq_dec a 599) as [->|Hne].
    + change 599 with (600 - 1).
      rewrite (nth_error_linspace_last (T := R)) by lia.
      intros Heq. injection Heq as Heq. lra.
    + assert (Hnone : nth_error (linspace (-1)%R 1%R 600) a = None).
      { apply nth_error_None. rewrite length_linspace. lia. }
      rewrite Hnone. discriminate.
Qed.

(** C7, the claim as stated fails at the default resolution: at the
    point of index (300, 300) of the 600 x 600 grid the normal is about
    (0.00167, -0.00167, 0.9999972), not (0,0,1), and the colour is about
    (0.50083, 0.49917, 0.9999986), not (0.5, 0.5, 1.0). *)
Lemma generateNormalMap_default_counterexample :
  grid_at (snd (sphereNormals (T := float) default_dims)) 300 300
  = Some (0x1.b5a2d4d5b08p-10, -0x1.b5a2d4d5b08p-10,
          0x1.ffffa27b4d2f2p-1)%float
  /\ grid_at (generateNormalMap (T := float) default_dims) 300 300
     = Some (0x1.006d68b5356c2p-1, 0x1.ff252e959527cp-2,
             0x1.ffffd13da697ap-1)%float.
Proof.
  split.
  - erewrite sphereNormals_at by (vm_compute; reflexivity).
    vm_compute. reflexivity.
  - erewrite generateNormalMap_at by (vm_compute; reflexivity).
    vm_compute. reflexivity.
Qed.

(** ** UncalibratedFactorizer: the matrices Q and B *)

Section FactorizerFacts.
Context {T : Type} `{Scalar T}.

Lemma nth_zip_with {A B C : Type} (f : A -> B -> C) l1 l2 j da db dc :
  j < length l1 -> j < length l2 ->
  nth j (zip_with f l1 l2) dc = f (nth j l1 da) (nth j l2 db).
Proof.
  revert l2 j; induction l1 as [|a l1 IH]; intros [|b l2] [|j]; simpl;
    intros; try lia; auto.
  apply IH; lia.
Qed.

Lemma length_double_from k (row : list T) :
  length (double_from k row) = length row.
Proof.
  unfold double_from.
  rewrite length_app, length_map, <- length_app.
  now rewrite firstn_skipn.
Qed.

Lemma nth_double_from (row : list T) j :
  j < length row ->
  nth j (double_from 4 row) s_zero
  = if j <? 4 then nth j row s_zero else (nth j row s_zero * s_two)%S.
Proof.
  intros Hj. unfold double_from.
  destruct (Nat.ltb_spec j 4) as [Hlt|Hge].
  - rewrite app_nth1 by (rewrite length_firstn; lia).
    rewrite <- (firstn_skipn 4 row) at 2.
    now rewrite app_nth1 by (rewrite length_firstn; lia).
  - assert (Hf : length (firstn 4 row) = 4) by (rewrite length_firstn; lia).
    rewrite app_nth2 by lia. rewrite Hf.
    rewrite <- (firstn_skipn 4 row) at 2.
    rewrite (app_nth2 (firstn 4 row)) by lia. rewrite Hf.
    assert (Hs : j - 4 < length (skipn 4 row)) by (rewrite length_skipn; lia).
    rewrite (nth_indep _ s_zero (s_zero * s_two)%S)
      by now rewrite length_map.
    apply (map_nth (fun x => (x * s_two)%S)).
Qed.

(** What [build_Q] computes: for a pseudo-shape of four rows and [n]
    columns, row [j] of [Q] holds the ten products of column [j] of
    [S]; none is doubled when [j < 4], all ten are when [j >= 4]. *)
Lemma build_Q_rows (r0 r1 r2 r3 : list T) n :
  length r0 = n -> length r1 = n -> length r2 = n -> length r3 = n ->
  build_Q [r0; r1; r2; r3]
  = Done (map (fun j => Q_row_computed j (column j [r0; r1; r2; r3]))
              (seq 0 n)).
Proof.
  intros H0 H1 H2 H3. unfold build_Q. simpl bind. f_equal.
  unfold swapaxes01. simpl hd.
  rewrite length_double_from, length_zip_with, H0, Nat.min_id.
  apply map_ext_in. intros j Hj. apply in_seq in Hj.
  unfold Q_row_computed, Q_products, column. simpl map.
  rewrite !nth_double_from by (rewrite length_zip_with; lia).
  rewrite !(nth_zip_with _ _ _ s_zero s_zero) by lia.
  destruct (j <? 4); reflexivity.
Qed.

(** C10: the matrix [B] unpacked from any vector [b] is a 4 x 4 matrix
    equal to its transpose. *)
Theorem unpack_B_symmetric (b : list T) :
  swapaxes01 s_zero (unpack_B b) = unpack_B b
  /\ length (unpack_B b) = 4
  /\ Forall (fun row => length row = 4) (unpack_B b).
Proof.
  split; [reflexivity|]. split; [reflexivity|].
  repeat constructor.
Qed.

(** Entry [(i, j)] of [B] is entry [(j, i)]. *)
Lemma unpack_B_entries (b : list T) i j :
  nth j (nth i (unpack_B b) []) s_zero = nth i (nth j (unpack_B b) []) s_zero.
Proof.
  assert (Hrow : forall k, length (nth k (unpack_B b) []) <= 4).
  { intros k. do 4 (destruct k as [|k]; [simpl; lia|]).
    destruct k; simpl; lia. }
  assert (Hout : forall k, 4 <= k -> nth k (unpack_B b) [] = []).
  { intros k Hk. apply nth_overflow. simpl. lia. }
  destruct (Nat.lt_ge_cases i 4) as [Hi|Hi], (Nat.lt_ge_cases j 4) as [Hj|Hj].
  - do 4 (destruct i as [|i];
          [do 4 (destruct j as [|j]; [reflexivity|]); lia|]).
    lia.
  - rewrite (nth_overflow (nth i _ _)) by (specialize (Hrow i); lia).
    rewrite (Hout j Hj). destruct i; reflexivity.
  - rewrite (nth_overflow (nth j _ _)) by (specialize (Hrow j); lia).
    rewrite (Hout i Hi). destruct j; reflexivity.
  - rewrite (Hout i Hi), (Hout j Hj). destruct i, j; reflexivity.
Qed.
End FactorizerFacts.

(** The vector [b] is row 9 of [V = Vh^T]: it collects the last
    coordinate of every right-singular vector. *)
Lemma b_of_svd_row_of_V {T : Type} `{Scalar T}
  (U : matrix T) (s : list T) (Vh : matrix T) :
  9 < ncols Vh -> b_of_svd (U, s, Vh) = nth 9 (swapaxes01 s_zero Vh) [].
Proof.
  intros Hn. unfold b_of_svd, column, swapaxes01. fold (ncols Vh).
  rewrite (nth_map_in_range _ _ 0) by now rewrite length_seq.
  now rewrite seq_nth.
Qed.

(** ** Failures *)

Section RunFacts.
Context {T : Type} `{Scalar T}.

Lemma take_rows_in_range (S : matrix T) idx :
  (forall i, In i idx -> i < length S) ->
  take_rows S idx = Done (map (fun i => nth i S []) idx).
Proof.
  induction idx as [|i idx IH]; intros Hin; simpl; auto.
  assert (Hi : i < length S) by (apply Hin; now left).
  rewrite (nth_error_nth' S [] Hi), IH by (intros; apply Hin; now right).
  reflexivity.
Qed.

Lemma take_rows_out_of_range (S : matrix T) idx i :
  In i idx -> length S <= i -> take_rows S idx = Raise IndexError.
Proof.
  induction idx as [|k idx IH]; intros Hin Hi; [destruct Hin|].
  simpl. destruct (nth_error S k) as [r|] eqn:Hk; auto.
  destruct Hin as [->|Hin].
  - apply nth_error_None in Hi. congruence.
  - now rewrite IH.
Qed.

Lemma build_Q_short (S : matrix T) :
  length S < 4 -> build_Q S = Raise IndexError.
Proof.
  intros Hlen. unfold build_Q.
  rewrite (@take_rows_out_of_range S _ 3); simpl; auto; lia.
Qed.

Lemma build_Q_total (S : matrix T) :
  4 <= length S -> exists Q, build_Q S = Done Q.
Proof.
  intros Hlen. unfold build_Q.
  rewrite !take_rows_in_range
    by (intros i Hi; simpl in Hi; repeat destruct Hi as [<-|Hi]; try lia;
        destruct Hi).
  simpl. eauto.
Qed.

End RunFacts.

Section UncalibratedRuns.
Context {T : Type} `{Scalar T} `{!Reductions T}.

Lemma normalise_S_length (S S' : matrix T) :
  normalise_S S = Done S' -> length S' = length S.
Proof.
  unfold normalise_S. destruct S as [|r0 rest]; simpl; [discriminate|].
  intros Heq. injection Heq as <-. reflexivity.
Qed.

Lemma normalise_S_total (S : matrix T) :
  1 <= length S -> exists S', normalise_S S = Done S'.
Proof.
  destruct S as [|r0 rest]; simpl; [lia|]. unfold normalise_S. simpl. eauto.
Qed.

Variable svd : matrix T -> matrix T * list T * matrix T.
Variable eigvals : matrix T -> list T.
Variable eig : matrix T -> list T * matrix T.
Variable svd_reduced : matrix T -> option (matrix T * list T * matrix T).
Variable single_image_error : exn.

(** The assignment of line 77 fills an array of [f] rows, or fails. *)
Lemma fill_delta_cases (f n : nat) (delta_vals : list T) :
  fill_delta f n delta_vals = Raise ValueError
  \/ exists delta, fill_delta f n delta_vals = Done delta /\ length delta = f.
Proof.
  unfold fill_delta. destruct (broadcastable _ _); [right|now left].
  eexists. split; [reflexivity|]. now rewrite length_map, length_seq.
Qed.

(** Lines 83-84 fail on every array of objects. *)
Lemma normalise_S_array_objects (coefficients : matrix T) Vt :
  normalise_S_array single_image_error (Objects coefficients Vt)
  = Raise (if 2 <=? length coefficients then ValueError
           else single_image_error).
Proof.
  unfold normalise_S_array.
  destruct (2 <=? length coefficients); reflexivity.
Qed.

(** No run of the uncalibrated factorizer returns: each ends with an
    exception, at line 84 or before. *)
Lemma uncalibrated_raises (images : list (image T)) :
  exists e,
    photometricStereoWithoutLightning svd eigvals eig svd_reduced
      single_image_error images = Raise e.
Proof.
  destruct images as [|first rest]; [now exists IndexError|].
  unfold photometricStereoWithoutLightning.
  destruct (vstack (map (@ravel T) (first :: rest))) as [M|e|k] eqn:HM.
  - cbn [bind].
    destruct (svd_reduced M) as [[[U delta_vals] Vt]|]; [|now eexists].
    destruct (fill_delta_cases (length (first :: rest))
                (fst (shape first) * snd (shape first)) delta_vals)
      as [Hd|[delta [Hd _]]]; rewrite Hd; cbn [bind]; [now eexists|].
    unfold dot_sparse. rewrite normalise_S_array_objects. now eexists.
  - now eexists.
  - unfold vstack in HM. simpl in HM.
    destruct (forallb _ _); discriminate.
Qed.

End UncalibratedRuns.

Section CalibratedRuns.
Context {T : Type} `{Scalar T}.
Variable pinv : list (vec3 T) -> list (vec3 T).
Variable lstsq : list (vec3 T) -> matrix T -> list (vec3 T).

Lemma vstack_same_length {A : Type} (r : list A) rest :
  (forall r', In r' rest -> length r' = length r) ->
  vstack (r :: rest) = Done (r :: rest).
Proof.
  intros Hall. unfold vstack.
  replace (forallb _ rest) with true; auto.
  symmetry. apply forallb_forall. intros r' Hr'.
  apply Nat.eqb_eq. auto.
Qed.

(** The calibrated solver ends, and with a normal field, on every
    stack of one or more images of one size. *)
Lemma photometricStereo_total shot (shots : list (vec3 T * image T)) :
  (forall s, In s shots ->
             length (ravel (snd s)) = length (ravel (snd shot))) ->
  exists out, photometricStereo pinv lstsq (shot :: shots) = Done out.
Proof.
  intros Hall. unfold photometricStereo.
  simpl map. rewrite vstack_same_length.
  - simpl. destruct (shape (snd shot)). eauto.
  - intros r' Hr'. apply in_map_iff in Hr' as [im [<- Him]].
    apply in_map_iff in Him as [s [<- Hs]]. auto.
Qed.

(** The calibrated solver never waits for the debugger. *)
Lemma photometricStereo_never_suspends (shots : list (vec3 T * image T)) :
  never_suspends (photometricStereo pinv lstsq shots) = true.
Proof.
  unfold photometricStereo.
  destruct (vstack _) as [I| |]eqn:HI; simpl.
  - destruct (shape _); reflexivity.
  - reflexivity.
  - unfold vstack in HI.
    destruct (map _ _); [discriminate|]. destruct (forallb _ _); discriminate.
Qed.
End CalibratedRuns.


(** C8: no run of either reconstruction function waits for the
    debugger.  Whatever the library routines return, a run of the
    calibrated solver ends with a normal field or with an exception, and
    a run of the uncalibrated factorizer ends with an exception, raised
    at line 84 or before: no run reaches the breakpoint of line 121. *)
Theorem reconstruction_never_suspends {T : Type} `{Scalar T} `{!Reductions T}
  (pinv : list (vec3 T) -> list (vec3 T))
  (lstsq : list (vec3 T) -> matrix T -> list (vec3 T))
  (svd : matrix T -> matrix T * list T * matrix T)
  (eigvals : matrix T -> list T)
  (eig : matrix T -> list T * matrix T)
  (svd_reduced : matrix T -> option (matrix T * list T * matrix T))
  (single_image_error : exn)
  (shots : list (vec3 T * image T)) (images : list (image T)) :
  never_suspends (photometricStereo pinv lstsq shots) = true
  /\ never_suspends
       (photometricStereoWithoutLightning svd eigvals eig svd_reduced
          single_image_error images) = true
  /\ exists e,
       photometricStereoWithoutLightning svd eigvals eig svd_reduced
         single_image_error images = Raise e.
Proof.
  split; [apply photometricStereo_never_suspends|].
  destruct (uncalibrated_raises svd eigvals eig svd_reduced
              single_image_error images) as [e He].
  rewrite He. split; [reflexivity|now exists e].
Qed.




(** ** CalibratedSolver over the reals *)

Section MaskFacts.
Context {A : Type}.

Lemma length_select (mask : list bool) (l : list A) :
  length l = length mask -> length (select mask l) = count_true mask.
Proof.
  revert l; induction mask as [|m mask IH]; intros [|x l] Hlen;
    simpl in *; try discriminate; auto.
  unfold count_true in *. destruct m; simpl; auto.
Qed.

Lemma rank_in_lt (mask : list bool) j :
  nth j mask false = true -> rank_in mask j < count_true mask.
Proof.
  revert j; induction mask as [|m mask IH]; intros [|j] Hj; simpl in *;
    try discriminate.
  - subst m. unfold rank_in, count_true. simpl. lia.
  - specialize (IH j Hj). unfold rank_in, count_true in *.
    destruct m; simpl; lia.
Qed.

Lemma nth_select (mask : list bool) (l : list A) j d :
  length l = length mask -> nth j mask false = true ->
  nth (rank_in mask j) (select mask l) d = nth j l d.
Proof.
  revert l j; induction mask as [|m mask IH]; intros [|x l] [|j] Hlen Hj;
    simpl in *; try discriminate.
  - subst m. reflexivity.
  - injection Hlen as Hlen. specialize (IH l j Hlen Hj).
    unfold rank_in, count_true in *. destruct m; simpl; auto.
Qed.

Lemma nth_scatter (mask : list bool) (vals out : list A) j d :
  length out = length mask -> length vals = count_true mask ->
  nth j (scatter mask vals out) d
  = if nth j mask false then nth (rank_in mask j) vals d else nth j out d.
Proof.
  revert vals out j; induction mask as [|m mask IH];
    intros vals [|o out] j Hlen Hvals; simpl in *; try discriminate.
  - destruct j; reflexivity.
  - injection Hlen as Hlen. unfold rank_in, count_true in *.
    destruct m; simpl in *.
    + destruct vals as [|v vals]; [discriminate|].
      injection Hvals as Hvals.
      destruct j as [|j]; simpl; auto.
    + destruct j as [|j]; simpl; auto.
Qed.
End MaskFacts.

Section RealLinearAlgebra.
Local Open Scope R_scope.

Lemma add3_assoc_R (u v w : vec3 R) : add3 (add3 u v) w = add3 u (add3 v w).
Proof.
  destruct u as [[a b] c], v as [[d e] f], w as [[g h] i]. simpl.
  vec3_eq; ring.
Qed.

Lemma add3_zero_l_R (v : vec3 R) : add3 zero3 v = v.
Proof. destruct v as [[a b] c]. simpl. vec3_eq; ring. Qed.

Lemma fold_add3_R (l : list (vec3 R)) (a : vec3 R) :
  fold_left add3 l a = add3 a (fold_left add3 l zero3).
Proof.
  revert a; induction l as [|x l IH]; intros a; cbn [fold_left].
  - destruct a as [[p q] r]. simpl. vec3_eq; ring.
  - rewrite IH, (IH (add3 zero3 x)), add3_zero_l_R. apply add3_assoc_R.
Qed.

Lemma lincomb_cons_R (x : vec3 R) X t b :
  lincomb (x :: X) (t :: b) = add3 (scale3 t x) (lincomb X b).
Proof.
  unfold lincomb. cbn [zip_with fold_left].
  now rewrite fold_add3_R, add3_zero_l_R.
Qed.

Lemma lincomb_nil_l_R (b : list R) : lincomb [] b = zero3.
Proof. unfold lincomb. now destruct b. Qed.

Lemma lincomb_nil_r_R (X : list (vec3 R)) : lincomb X [] = zero3.
Proof. reflexivity. Qed.

Lemma scale3_add3_R k (u v : vec3 R) :
  scale3 k (add3 u v) = add3 (scale3 k u) (scale3 k v).
Proof.
  destruct u as [[a b] c], v as [[d e] f]. simpl. vec3_eq; ring.
Qed.

Lemma scale3_zero3_R k : scale3 k (zero3 (T := R)) = zero3.
Proof. simpl. vec3_eq; ring. Qed.

(** [X (b / r) = (X b) / r] *)
Lemma lincomb_div_R (X : list (vec3 R)) b r :
  lincomb X (map (fun t => t / r) b) = scale3 (/ r) (lincomb X b).
Proof.
  revert b; induction X as [|x X IH]; intros b.
  - now rewrite !lincomb_nil_l_R, scale3_zero3_R.
  - destruct b as [|t b]; simpl map.
    + now rewrite !lincomb_nil_r_R, scale3_zero3_R.
    + rewrite !lincomb_cons_R, IH, scale3_add3_R. f_equal.
      destruct x as [[p q] s]. simpl. unfold Rdiv.
      vec3_eq; ring.
Qed.

Lemma mat3_vec_scale3_R (G : mat3 R) k v :
  mat3_vec G (scale3 k v) = scale3 k (mat3_vec G v).
Proof.
  destruct G as [[[[a b] c] [[d e] f]] [[g h] i]], v as [[x y] z]. simpl.
  vec3_eq; ring.
Qed.

Lemma mat3_vec_add3_R (G : mat3 R) u v :
  mat3_vec G (add3 u v) = add3 (mat3_vec G u) (mat3_vec G v).
Proof.
  destruct G as [[[[a b] c] [[d e] f]] [[g h] i]], u as [[p q] r],
    v as [[x y] z]. simpl.
  vec3_eq; ring.
Qed.

Lemma mat3_vec_zero3_R (G : mat3 R) : mat3_vec G zero3 = zero3.
Proof.
  destruct G as [[[[a b] c] [[d e] f]] [[g h] i]]. simpl.
  vec3_eq; ring.
Qed.

(** [K (sum_i b_i X_i) = sum_i b_i (K X_i)] *)
Lemma mat3_vec_lincomb_R (K : mat3 R) X b :
  mat3_vec K (lincomb X b) = lincomb (map (mat3_vec K) X) b.
Proof.
  revert b; induction X as [|x X IH]; intros b; simpl map.
  - now rewrite !lincomb_nil_l_R, mat3_vec_zero3_R.
  - destruct b as [|t b].
    + now rewrite !lincomb_nil_r_R, mat3_vec_zero3_R.
    + now rewrite !lincomb_cons_R, mat3_vec_add3_R, mat3_vec_scale3_R, IH.
Qed.

(** [adj(G) G = det(G) 1] *)
Lemma adj3_mat3_vec_R (G : mat3 R) v :
  mat3_vec (adj3 G) (mat3_vec G v) = scale3 (det3 G) v.
Proof.
  destruct G as [[[[a b] c] [[d e] f]] [[g h] i]], v as [[x y] z]. simpl.
  vec3_eq; ring.
Qed.

(** [G adj(G) = det(G) 1] *)
Lemma mat3_vec_adj3_R (G : mat3 R) v :
  mat3_vec G (mat3_vec (adj3 G) v) = scale3 (det3 G) v.
Proof.
  destruct G as [[[[a b] c] [[d e] f]] [[g h] i]], v as [[x y] z]. simpl.
  vec3_eq; ring.
Qed.

Lemma scale3_cancel_R k (u v : vec3 R) :
  k <> 0 -> scale3 k u = scale3 k v -> u = v.
Proof.
  intros Hk. destruct u as [[a b] c], v as [[x y] z]. simpl.
  intros Heq. injection Heq as H1 H2 H3.
  apply Rmult_eq_reg_l in H1, H2, H3; auto. congruence.
Qed.

(** An invertible matrix is injective. *)
Lemma mat3_vec_injective_R (G : mat3 R) u v :
  det3 G <> 0 -> mat3_vec G u = mat3_vec G v -> u = v.
Proof.
  intros Hdet Heq. apply (@scale3_cancel_R (det3 G)); auto.
  now rewrite <- !adj3_mat3_vec_R, Heq.
Qed.

Lemma norm3_nonneg_R (v : vec3 R) : 0 <= norm3 v.
Proof. destruct v as [[x y] z]. apply sqrt_pos. Qed.

(** A vector divided by its nonzero norm has norm 1. *)
Lemma norm3_normalised_R (v : vec3 R) :
  norm3 v <> 0 -> norm3 (scale3 (/ norm3 v) v) = 1.
Proof.
  intros Hn. pose proof (norm3_nonneg_R v) as Hpos.
  assert (0 < norm3 v) as Hlt by lra.
  rewrite norm3_scale3_R.
  - now apply Rinv_l.
  - left. now apply Rinv_0_lt_compat.
Qed.
End RealLinearAlgebra.

Lemma gram_nil_singular_R : ~ full_column_rank (T := R) [].
Proof. unfold full_column_rank. simpl. intros Hn. apply Hn. ring. Qed.

(** At binary64 the norm is 1 only up to rounding.  For the lights
    (1,0,0), (0,1,0) and (0,0,1), whose pseudo-inverse is the identity,
    and a pixel of the intensities 3, 5 and 7, the albedo is about 9.11
    and the vector returned has the norm 0.99999999999999989. *)
Example photometricStereo_binary64_norm :
  let N := map fst Inputs.unit_lights_shots in
  let I := map (fun s => ravel (snd s)) Inputs.unit_lights_shots in
  pinv_ref N = [(1, 0, 0); (0, 1, 0); (0, 0, 1)]%float
  /\ is_pseudo_inverse N (pinv_ref N)
  /\ albedo pinv_ref N I = [0x1.2388ac0059c28p+3]%float
  /\ photometricStereo pinv_ref lstsq_ref Inputs.unit_lights_shots
     = Done [[(0x1.513220631ab5cp-2, 0x1.18ff1afd40ecdp-1,
               0x1.896525c8f47ebp-1)%float]]
  /\ norm3 (0x1.513220631ab5cp-2, 0x1.18ff1afd40ecdp-1,
            0x1.896525c8f47ebp-1)%float
     = 0x1.fffffffffffffp-1%float
  /\ PrimFloat.eqb 0x1.fffffffffffffp-1 1 = false.
Proof. repeat split; vm_compute; reflexivity. Qed.

Section CalibratedCorrect.
Local Open Scope R_scope.

Variable pinv : list (vec3 R) -> list (vec3 R).
Variable lstsq : list (vec3 R) -> matrix R -> list (vec3 R).

(** The contracts of the two routines, for a lighting matrix of full
    column rank.  The product of the Moore-Penrose inverse with a
    vector [b], and the least-squares solution for each column [b] of
    the right-hand side, solve the normal equations
    [N^T N x = N^T b]; [lstsq] returns one solution per column. *)
Hypothesis pinv_normal :
  forall N b, full_column_rank N -> length b = length N ->
    mat3_vec (gram N) (lincomb (pinv N) b) = lincomb N b.
Hypothesis lstsq_normal :
  forall N B k x, full_column_rank N -> length B = length N ->
    nth_error (lstsq N B) k = Some x ->
    mat3_vec (gram N) x = lincomb N (column k B).
Hypothesis lstsq_shape :
  forall N B, length (lstsq N B) = ncols B.

Lemma length_albedo N (I : matrix R) :
  length (albedo pinv N I) = ncols I.
Proof. unfold albedo, dot_3n. now rewrite !length_map, length_seq. Qed.

Lemma nth_albedo N (I : matrix R) j :
  (j < ncols I)%nat ->
  nth j (albedo pinv N I) 0 = norm3 (lincomb (pinv N) (column j I)).
Proof.
  intros Hj. unfold albedo, dot_3n. rewrite map_map.
  rewrite (nth_map_in_range _ _ 0%nat) by now rewrite length_seq.
  now rewrite seq_nth.
Qed.

Lemma column_div (I : matrix R) rho j p :
  (forall row, In row I -> length row = p) -> length rho = p ->
  (j < p)%nat ->
  column j (map (fun row => zip_with s_div row rho) I)
  = map (fun t => t / nth j rho 0) (column j I).
Proof.
  intros Hrect Hrho Hj. unfold column. rewrite !map_map.
  apply map_ext_in. intros row Hrow.
  assert (Hr : (j < length row)%nat) by (rewrite (Hrect _ Hrow); lia).
  assert (Hq : (j < length rho)%nat) by lia.
  exact (@nth_zip_with _ _ _ Rdiv row rho j 0 0 0 Hr Hq).
Qed.

Lemma column_select mask (M : matrix R) j :
  (forall row, In row M -> length row = length mask) ->
  nth j mask false = true ->
  column (rank_in mask j) (map (select mask) M) = column j M.
Proof.
  intros Hrect Hj. unfold column. rewrite map_map.
  apply map_ext_in. intros row Hrow. apply nth_select; auto.
Qed.

Lemma ncols_select mask (M : matrix R) :
  M <> [] -> (forall row, In row M -> length row = length mask) ->
  ncols (map (select mask) M) = count_true mask.
Proof.
  intros Hne Hrect. destruct M as [|row M]; [congruence|].
  unfold ncols. simpl. apply length_select. apply Hrect. now left.
Qed.

(** Column [j] of the solution: zero where the albedo is zero, and
    otherwise the column of [N^+ I] divided by its norm. *)
Lemma solve_normals_at N (I : matrix R) p j :
  full_column_rank N -> length I = length N ->
  (forall row, In row I -> length row = p) -> (j < p)%nat ->
  nth j (solve_normals pinv lstsq N I) zero3
  = if Req_dec_T (nth j (albedo pinv N I) 0) 0 then zero3
    else scale3 (/ nth j (albedo pinv N I) 0)
                (lincomb (pinv N) (column j I)).
Proof.
  intros Hrank Hlen Hrect Hj.
  assert (HI : I <> []).
  { intros ->. destruct N; [now apply gram_nil_singular_R|discriminate]. }
  assert (Hp : ncols I = p).
  { destruct I as [|row I]; [congruence|]. apply Hrect. now left. }
  unfold solve_normals.
  set (rho := albedo pinv N I).
  set (mask := map (fun r => negb (s_eqb r s_zero)) rho).
  set (I' := map (fun row => zip_with s_div row rho) I).
  assert (Hrho : length rho = p) by (unfold rho; now rewrite length_albedo).
  assert (Hmask : length mask = p) by (unfold mask; now rewrite length_map).
  assert (HI' : forall row, In row I' -> length row = length mask).
  { intros row Hrow. unfold I' in Hrow.
    apply in_map_iff in Hrow as [row0 [<- Hrow0]].
    rewrite length_zip_with, (Hrect _ Hrow0), Hrho, Hmask. lia. }
  assert (HI'ne : I' <> []) by (unfold I'; destruct I; simpl; congruence).
  assert (Hvals : length (lstsq N (map (select mask) I')) = count_true mask)
    by (rewrite lstsq_shape; now apply ncols_select).
  rewrite nth_scatter; [| now rewrite repeat_length, Hp | exact Hvals].
  assert (Hmj : nth j mask false
                = negb (if Req_dec_T (nth j rho 0) 0 then true else false)).
  { unfold mask. rewrite (nth_map_in_range _ _ 0) by lia. reflexivity. }
  rewrite Hmj. destruct (Req_dec_T (nth j rho 0) 0) as [Hz|Hnz]; simpl negb.
  - rewrite Hp. apply nth_repeat.
  - cbv iota.
    assert (Hmt : nth j mask false = true).
    { rewrite Hmj. now destruct (Req_dec_T (nth j rho 0) 0). }
    pose proof (rank_in_lt mask j Hmt) as Hlt.
    rewrite <- Hvals in Hlt.
    apply (@mat3_vec_injective_R (gram N)); [exact Hrank|].
    rewrite (@lstsq_normal N (map (select mask) I') (rank_in mask j));
      [| exact Hrank | now rewrite length_map; unfold I'; rewrite length_map
       | now apply nth_error_nth' ].
    rewrite column_select by assumption.
    unfold I'. rewrite (@column_div I rho j p) by assumption.
    rewrite lincomb_div_R, mat3_vec_scale3_R, pinv_normal;
      [reflexivity | exact Hrank | unfold column; now rewrite length_map].
Qed.

(** C1 (as the code behaves): over the reals, for a lighting matrix of
    column rank 3 and images of one shape (w, h), the calibrated solver
    returns a field with a vector at every position; the vector of a
    pixel with nonzero albedo has Euclidean norm 1 and that of a pixel
    with zero albedo is the zero vector.  At binary64 the norm need not
    be 1: for the lights (1,0,0), (0,1,0) and (0,0,1) and a pixel of the
    intensities 3, 5 and 7, whose albedo is not zero, it is
    0.99999999999999989. *)
Theorem photometricStereo_unit_normals
  (shots : list (vec3 R * image R)) (w h : nat) :
  let N := map fst shots in
  let I := map (fun s => ravel (snd s)) shots in
  full_column_rank N ->
  (forall s, In s shots ->
             shape (snd s) = (w, h) /\ length (ravel (snd s)) = (w * h)%nat) ->
  (exists out,
      photometricStereo pinv lstsq shots = Done out
      /\ forall u v, (u < w)%nat -> (v < h)%nat ->
           exists n,
             grid_at out v u = Some n
             /\ (nth (u * h + v) (albedo pinv N I) 0 <> 0 -> norm3 n = 1)
             /\ (nth (u * h + v) (albedo pinv N I) 0 = 0 -> n = zero3))
  /\ photometricStereo pinv_ref lstsq_ref Inputs.unit_lights_shots
     = Done [[(0x1.513220631ab5cp-2, 0x1.18ff1afd40ecdp-1,
               0x1.896525c8f47ebp-1)%float]]
  /\ norm3 (0x1.513220631ab5cp-2, 0x1.18ff1afd40ecdp-1,
            0x1.896525c8f47ebp-1)%float
     = 0x1.fffffffffffffp-1%float.
Proof.
  intros N I Hrank Hshape.
  split; [|split; apply photometricStereo_binary64_norm].
  destruct shots as [|shot shots]; [now apply gram_nil_singular_R in Hrank|].
  assert (Hrect : forall row, In row I -> length row = (w * h)%nat).
  { intros row Hrow. apply in_map_iff in Hrow as [s [<- Hs]].
    now apply Hshape. }
  unfold photometricStereo. rewrite map_map.
  fold I. unfold I at 1. simpl map.
  rewrite vstack_same_length.
  2:{ intros r' Hr'. rewrite (Hrect r') by (unfold I; simpl; now right).
      symmetry. apply Hrect. unfold I. simpl. now left. }
  simpl bind. simpl hd.
  destruct (Hshape shot (or_introl eq_refl)) as [Hsh _]. rewrite Hsh.
  eexists. split; [reflexivity|].
  intros u v Hu Hv.
  assert (Hj : (u * h + v < w * h)%nat) by nia.
  exists (nth (u * h + v) (solve_normals pinv lstsq N I) zero3).
  split.
  - unfold grid_at, reshape_swap.
    rewrite nth_error_map, nth_error_seq.
    replace (v <? h)%nat with true by (symmetry; now apply Nat.ltb_lt).
    simpl. rewrite nth_error_map, nth_error_seq.
    replace (u <? w)%nat with true by (symmetry; now apply Nat.ltb_lt).
    reflexivity.
  - rewrite (@solve_normals_at N I (w * h)%nat); auto;
      [| unfold I, N; now rewrite !length_map ].
    destruct (Req_dec_T _ 0) as [Hz|Hnz]; split; intros Hr;
      try reflexivity; try contradiction.
    rewrite nth_albedo in *
      by (unfold ncols, I; simpl;
          rewrite (proj2 (Hshape shot (or_introl eq_refl))); exact Hj).
    now apply norm3_normalised_R.
Qed.
End CalibratedCorrect.

(** The reference routines meet the contracts. *)
Section ReferenceFacts.
Local Open Scope R_scope.

Lemma mat3_vec_scale_R k (G : mat3 R) v :
  mat3_vec (mat3_scale k G) v = scale3 k (mat3_vec G v).
Proof.
  destruct G as [[[[a b] c] [[d e] f]] [[g h] i]], v as [[x y] z].
  vec3_eq; ring.
Qed.

Lemma pinv_sym3_full_rank (G : mat3 R) :
  det3 G <> 0 -> pinv_sym3 G = mat3_scale (1 / det3 G) (adj3 G).
Proof.
  intros Hdet. unfold pinv_sym3. simpl s_eqb.
  destruct (Req_dec_T (det3 G) 0) as [Hz|Hnz]; [contradiction|].
  reflexivity.
Qed.

Lemma pinv_sym3_inverse (G : mat3 R) v :
  det3 G <> 0 -> mat3_vec G (mat3_vec (pinv_sym3 G) v) = v.
Proof.
  intros Hdet.
  rewrite pinv_sym3_full_rank, mat3_vec_scale_R, mat3_vec_scale3_R,
    mat3_vec_adj3_R by assumption.
  destruct v as [[x y] z]. vec3_eq; field; assumption.
Qed.

Lemma pinv_ref_normal N (b : list R) :
  full_column_rank N -> length b = length N ->
  mat3_vec (gram N) (lincomb (pinv_ref N) b) = lincomb N b.
Proof.
  intros Hrank _. unfold pinv_ref.
  rewrite <- mat3_vec_lincomb_R. now apply pinv_sym3_inverse.
Qed.

Lemma lstsq_ref_shape N (B : matrix R) : length (lstsq_ref N B) = ncols B.
Proof. unfold lstsq_ref. now rewrite length_map, length_seq. Qed.

Lemma lstsq_ref_normal N (B : matrix R) k x :
  full_column_rank N -> length B = length N ->
  nth_error (lstsq_ref N B) k = Some x ->
  mat3_vec (gram N) x = lincomb N (column k B).
Proof.
  intros Hrank _ Hx. unfold lstsq_ref in Hx.
  rewrite nth_error_map, nth_error_seq in Hx.
  destruct (k <? ncols B)%nat; [|discriminate].
  injection Hx as <-. now apply pinv_sym3_inverse.
Qed.

(** For a symmetric [G] the rank-2 formula satisfies
    [G G^+ G = G - (det G / c2) (1 + (c1 / c2) G)], hence [G G^+ G = G]
    when [G] is singular. *)
Lemma pinv_rank2_identity (a b c e f i : R) :
  let G : mat3 R := ((a, b, c), (b, e, f), (c, f, i)) in
  minors3 G <> 0 ->
  mat3_mul (mat3_mul G (pinv_rank2 G)) G
  = mat3_sub G (mat3_scale (det3 G / minors3 G)
                  (mat3_add mat3_one (mat3_scale (trace3 G / minors3 G) G))).
Proof.
  intros G Hm. unfold pinv_rank2, G in *. simpl in *.
  apply f_equal2; [apply f_equal2|];
    (apply f_equal2; [apply f_equal2|]); field; exact Hm.
Qed.

Lemma pinv_sym3_singular (G : mat3 R) :
  det3 G = 0 -> minors3 G <> 0 -> pinv_sym3 G = pinv_rank2 G.
Proof.
  intros Hdet Hm. unfold pinv_sym3. simpl s_eqb.
  destruct (Req_dec_T (det3 G) 0) as [_|Hn]; [|contradiction].
  destruct (Req_dec_T (minors3 G) 0) as [Hz|_]; [contradiction|].
  reflexivity.
Qed.

Lemma pinv_sym3_rank2 (a b c e f i : R) :
  let G : mat3 R := ((a, b, c), (b, e, f), (c, f, i)) in
  det3 G = 0 -> minors3 G <> 0 ->
  mat3_mul (mat3_mul G (pinv_sym3 G)) G = G.
Proof.
  intros G Hdet Hm.
  rewrite (@pinv_sym3_singular G Hdet Hm).
  pose proof (@pinv_rank2_identity a b c e f i Hm) as Hid.
  fold G in Hid. rewrite Hid, Hdet. unfold G. simpl.
  apply f_equal2; [apply f_equal2|];
    (apply f_equal2; [apply f_equal2|]); field; exact Hm.
Qed.
End ReferenceFacts.

(** On the two lights of [Inputs.two_shots] (rank 2) the reference
    routine returns the pseudo-inverse. *)
Example pinv_ref_two_shots :
  pinv_ref (map fst Inputs.two_shots) = [(1, 0, 0); (0, 1, 0)]%float
  /\ is_pseudo_inverse (map fst Inputs.two_shots)
                       (pinv_ref (map fst Inputs.two_shots)).
Proof. repeat split; vm_compute; reflexivity. Qed.

Lemma photometricStereo_unit_normals_witness :
  (exists out,
      photometricStereo pinv_ref lstsq_ref Inputs.three_shots = Done out
      /\ forall u v, u < 1 -> v < 1 ->
           exists n,
             grid_at out v u = Some n
             /\ (nth (u * 1 + v)
                     (albedo pinv_ref (map fst Inputs.three_shots)
                        (map (fun s => ravel (snd s)) Inputs.three_shots))
                     0%R <> 0%R
                 -> norm3 n = 1%R)
             /\ (nth (u * 1 + v)
                     (albedo pinv_ref (map fst Inputs.three_shots)
                        (map (fun s => ravel (snd s)) Inputs.three_shots))
                     0%R = 0%R
                 -> n = zero3))
  /\ photometricStereo pinv_ref lstsq_ref Inputs.unit_lights_shots
     = Done [[(0x1.513220631ab5cp-2, 0x1.18ff1afd40ecdp-1,
               0x1.896525c8f47ebp-1)%float]]
  /\ norm3 (0x1.513220631ab5cp-2, 0x1.18ff1afd40ecdp-1,
            0x1.896525c8f47ebp-1)%float
     = 0x1.fffffffffffffp-1%float.
Proof.
  apply (@photometricStereo_unit_normals pinv_ref lstsq_ref pinv_ref_normal
           lstsq_ref_normal lstsq_ref_shape Inputs.three_shots 1 1).
  - unfold full_column_rank. simpl. lra.
  - intros s [<-|[<-|[<-|[]]]]; split; reflexivity.
Defined.

(** C1, the claim as stated fails at binary64, where the norm is 1 only
    up to rounding.  For the lights (1,0,0), (0,1,0) and (0,0,1), whose
    pseudo-inverse is the identity, and a pixel of the intensities 3, 5
    and 7, the albedo is about 9.11 and the vector returned has the norm
    0.99999999999999989. *)
Lemma photometricStereo_unit_normals_counterexample :
  let N := map fst Inputs.unit_lights_shots in
  let I := map (fun s => ravel (snd s)) Inputs.unit_lights_shots in
  pinv_ref N = [(1, 0, 0); (0, 1, 0); (0, 0, 1)]%float
  /\ is_pseudo_inverse N (pinv_ref N)
  /\ albedo pinv_ref N I = [0x1.2388ac0059c28p+3]%float
  /\ photometricStereo pinv_ref lstsq_ref Inputs.unit_lights_shots
     = Done [[(0x1.513220631ab5cp-2, 0x1.18ff1afd40ecdp-1,
               0x1.896525c8f47ebp-1)%float]]
  /\ norm3 (0x1.513220631ab5cp-2, 0x1.18ff1afd40ecdp-1,
            0x1.896525c8f47ebp-1)%float
     = 0x1.fffffffffffffp-1%float
  /\ PrimFloat.eqb 0x1.fffffffffffffp-1 1 = false.
Proof. exact photometricStereo_binary64_norm. Qed.

(** ** CalibratedSolver over the reals: any number of images, any rank *)

Section AnyRank.
Local Open Scope R_scope.

Variable pinv : list (vec3 R) -> list (vec3 R).
Variable lstsq : list (vec3 R) -> matrix R -> list (vec3 R).

(** What [np.linalg.lstsq] documents for a lighting matrix of any rank:
    one solution per column [b] of the right-hand side, the
    least-squares solution of minimal norm, which is [N^+ b]. *)
Hypothesis lstsq_shape :
  forall N B, length (lstsq N B) = ncols B.
Hypothesis lstsq_minimal :
  forall N B k x, nth_error (lstsq N B) k = Some x ->
    x = lincomb (pinv N) (column k B).


End AnyRank.





(** ** UncalibratedFactorizer: the ambiguity step over the reals *)

Section AmbiguityFacts.
Local Open Scope R_scope.

Lemma fold_left_Rplus (l : list R) a :
  fold_left Rplus l a = a + fold_left Rplus l 0.
Proof.
  revert a; induction l as [|x l IH]; intros a; simpl; [ring|].
  rewrite IH, (IH (0 + x)). ring.
Qed.

Lemma sum_cons_R (x : R) l : sum (x :: l) = x + sum l.
Proof. unfold sum. simpl. rewrite fold_left_Rplus. ring. Qed.

Lemma sign_cases_R (x : R) :
  (x < 0 /\ sign x = -1) \/ (0 < x /\ sign x = 1) \/ (x = 0 /\ sign x = 0).
Proof.
  unfold sign. simpl.
  destruct (Rlt_dec x 0); [now left|].
  destruct (Rlt_dec 0 x); [right; now left|].
  destruct (Req_dec_T x 0); [right; now right|]. exfalso; lra.
Qed.




Lemma dot_R (A B : matrix R) :
  dot A B
  = map (fun row =>
           map (fun j => sum (zip_with Rmult row (column j B)))
               (seq 0 (ncols B)))
        A.
Proof. reflexivity. Qed.


Variable svd : matrix R -> matrix R * list R * matrix R.
Variable eigvals : matrix R -> list R.
Variable eig : matrix R -> list R * matrix R.
Variable svd_reduced : matrix R -> option (matrix R * list R * matrix R).
Variable single_image_error : exn.

End AmbiguityFacts.







(** ** UncalibratedFactorizer: the vector b *)

Section NullVectorFacts.
Local Open Scope R_scope.



(** [Inputs.svd_four_images] is a singular value decomposition of the
    stack of [Inputs.four_images], and the matrix product
    [sqrt(delta[:4,:]) Vt] of lines 76-79 for it is [S_pair 4 3]. *)
Example svd_four_images_stack :
  let '(U, s, Vt) := Inputs.svd_four_images in
  dot U (dot (diag s) Vt) = map (@ravel R) Inputs.four_images.
Proof.
  unfold Inputs.svd_four_images, Inputs.four_images.
  assert (Hr : / R_sqrt.sqrt 2 * / R_sqrt.sqrt 2 = / 2).
  { rewrite <- Rinv_mult, sqrt_sqrt by lra. reflexivity. }
  set (r := / R_sqrt.sqrt 2) in *. clearbody r.
  rewrite !dot_R. unfold diag, column, ncols, sum. simpl.
  list_eq; nra.
Qed.

Example pseudo_shape_four_images :
  let '(U, s, Vt) := Inputs.svd_four_images in
  exists delta,
    fill_delta 4 4 s = Done delta
    /\ dot (gmap s_sqrt (firstn 4 delta)) Vt = Inputs.S_pair 4 3.
Proof.
  unfold Inputs.svd_four_images, Inputs.S_pair.
  eexists. split; [reflexivity|].
  assert (H16 : R_sqrt.sqrt 16 = 4)
    by (replace 16 with (4 * 4) by ring; apply sqrt_square; lra).
  assert (H9 : R_sqrt.sqrt 9 = 3)
    by (replace 9 with (3 * 3) by ring; apply sqrt_square; lra).
  assert (H8 : R_sqrt.sqrt 8 = 2 * R_sqrt.sqrt 2).
  { replace 8 with ((2 * 2) * 2) by ring.
    rewrite sqrt_mult, sqrt_square by lra. reflexivity. }
  assert (H2 : R_sqrt.sqrt 2 * / R_sqrt.sqrt 2 = 1).
  { apply Rinv_r. intros Hz. apply sqrt_eq_0 in Hz; lra. }
  rewrite dot_R. unfold gmap, diag, column, ncols, sum. simpl.
  rewrite H16, H9, H8, sqrt_0.
  set (s2 := R_sqrt.sqrt 2) in *. set (r := / s2) in *. clearbody r s2.
  list_eq; nra.
Qed.










(** It factorises [Q]: [Q = U diag(s) Vh[:4]]. *)
Lemma svd_Q_sorted_factors (a b : R) :
  let '(U, s, Vh) := Inputs.svd_Q_sorted a b in
  dot U (dot (diag s) (firstn 4 Vh)) = Inputs.Q_pair a b.
Proof.
  unfold Inputs.svd_Q_sorted, Inputs.Q_pair.
  assert (H2 : R_sqrt.sqrt 2 * / R_sqrt.sqrt 2 = 1).
  { apply Rinv_r. intros Hz. apply sqrt_eq_0 in Hz; lra. }
  assert (H17 : R_sqrt.sqrt 17 * / R_sqrt.sqrt 17 = 1).
  { apply Rinv_r. intros Hz. apply sqrt_eq_0 in Hz; lra. }
  assert (H34 : R_sqrt.sqrt 34 = R_sqrt.sqrt 2 * R_sqrt.sqrt 17).
  { rewrite <- sqrt_mult by lra. f_equal; ring. }
  assert (H8 : R_sqrt.sqrt 8 = 2 * R_sqrt.sqrt 2).
  { replace 8 with ((2 * 2) * 2) by ring.
    rewrite sqrt_mult, sqrt_square by lra. reflexivity. }
  rewrite H34, H8.
  set (s2 := R_sqrt.sqrt 2) in *. set (s17 := R_sqrt.sqrt 17) in *.
  set (r := / s2) in *. set (t := / s17) in *. clearbody r t s2 s17.
  rewrite !dot_R. unfold diag, column, ncols, sum. simpl.
  list_eq; nra.
Qed.

End NullVectorFacts.



(** * Further properties of the code *)

(** ** CalibratedSolver: failures and the shape of the result *)

Lemma forallb_false_In {A : Type} (f : A -> bool) l :
  forallb f l = false -> exists x, In x l /\ f x = false.
Proof.
  induction l as [|a l IH]; simpl; [discriminate|].
  destruct (f a) eqn:Hfa; simpl.
  - intros Hl. destruct (IH Hl) as (x & Hx & Hfx). exists x. auto.
  - intros _. exists a. auto.
Qed.

Lemma vstack_cases {A : Type} (rows : list (list A)) :
  (vstack rows = Done rows
   /\ rows <> []
   /\ forall r1 r2, In r1 rows -> In r2 rows -> length r1 = length r2)
  \/ (vstack rows = Raise ValueError
      /\ (rows = []
          \/ exists r1 r2, In r1 rows /\ In r2 rows
                           /\ length r1 <> length r2)).
Proof.
  destruct rows as [|r rest]; [right; auto|]. unfold vstack.
  destruct (forallb _ rest) eqn:Hall.
  - left. split; [reflexivity|]. split; [discriminate|].
    assert (Hr : forall r', In r' (r :: rest) -> length r' = length r).
    { intros r' [<-|Hin]; [reflexivity|].
      rewrite forallb_forall in Hall. apply Nat.eqb_eq. now apply Hall. }
    intros r1 r2 H1 H2. now rewrite (Hr r1 H1), (Hr r2 H2).
  - right. split; [reflexivity|]. right.
    apply forallb_false_In in Hall as (r' & Hin & Hne).
    apply Nat.eqb_neq in Hne.
    exists r', r. simpl. auto.
Qed.

Lemma grid_at_reshape_swap {A : Type} (d : A) w h flat u v :
  u < w -> v < h ->
  grid_at (reshape_swap d w h flat) v u = Some (nth (u * h + v) flat d).
Proof.
  intros Hu Hv. unfold grid_at, reshape_swap.
  rewrite nth_error_map, nth_error_seq.
  replace (v <? h) with true by (symmetry; now apply Nat.ltb_lt).
  simpl. rewrite nth_error_map, nth_error_seq.
  replace (u <? w) with true by (symmetry; now apply Nat.ltb_lt).
  reflexivity.
Qed.

Lemma reshape_swap_ext {A : Type} (d : A) w h flat flat' :
  (forall j, j < w * h -> nth j flat d = nth j flat' d) ->
  reshape_swap d w h flat = reshape_swap d w h flat'.
Proof.
  intros Hext. unfold reshape_swap.
  apply map_ext_in. intros v Hv. apply in_seq in Hv.
  apply map_ext_in. intros u Hu. apply in_seq in Hu.
  apply Hext. nia.
Qed.

Section CalibratedShape.
Context {T : Type} `{Scalar T}.
Variable pinv : list (vec3 T) -> list (vec3 T).
Variable lstsq : list (vec3 T) -> matrix T -> list (vec3 T).

(** The result on a stack of images of one shape. *)
Lemma photometricStereo_grid (shots : list (vec3 T * image T)) w h :
  shots <> [] ->
  (forall s, In s shots ->
             shape (snd s) = (w, h) /\ length (ravel (snd s)) = w * h) ->
  photometricStereo pinv lstsq shots
  = Done (reshape_swap zero3 w h
            (solve_normals pinv lstsq (map fst shots)
               (map (fun s => ravel (snd s)) shots))).
Proof.
  intros Hne Hshape. destruct shots as [|shot shots]; [congruence|].
  unfold photometricStereo. rewrite map_map. simpl map.
  rewrite vstack_same_length.
  - simpl bind. simpl hd.
    destruct (Hshape shot (or_introl eq_refl)) as [-> _]. reflexivity.
  - intros r' Hr'. apply in_map_iff in Hr' as (s & <- & Hs).
    rewrite (proj2 (Hshape s (or_intror Hs))).
    now rewrite (proj2 (Hshape shot (or_introl eq_refl))).
Qed.

(** X5: the calibrated solver fails exactly on an empty stack and on a
    stack that holds two images of different sizes, and then with
    [ValueError] (raised by [np.vstack]); it raises nothing else and
    never waits for the debugger. *)
Theorem photometricStereo_failures (shots : list (vec3 T * image T)) :
  (photometricStereo pinv lstsq shots = Raise ValueError
   <-> shots = []
       \/ exists s1 s2, In s1 shots /\ In s2 shots
            /\ length (ravel (snd s1)) <> length (ravel (snd s2)))
  /\ (forall e, photometricStereo pinv lstsq shots = Raise e
                -> e = ValueError)
  /\ (forall k, photometricStereo pinv lstsq shots <> SetTrace k).
Proof.
  unfold photometricStereo.
  destruct (vstack_cases (map (@ravel T) (map snd shots)))
    as [(Hv & Hne & Hsame)|(Hv & Hbad)]; rewrite Hv; simpl bind.
  - destruct (shape _) as [w h]. split; [split|split].
    + discriminate.
    + intros [->|(s1 & s2 & H1 & H2 & Hd)]; [now elim Hne|].
      exfalso. apply Hd. apply Hsame; rewrite map_map;
        apply in_map_iff; eauto.
    + discriminate.
    + discriminate.
  - split; [split|split]; try discriminate;
      try (intros e He; congruence); try (intros _; reflexivity).
    intros _. destruct Hbad as [Hnil|(r1 & r2 & H1 & H2 & Hd)].
    + left. destruct shots; [reflexivity|discriminate].
    + right. rewrite map_map in H1, H2.
      apply in_map_iff in H1 as (s1 & <- & Hs1).
      apply in_map_iff in H2 as (s2 & <- & Hs2).
      exists s1, s2. auto.
Qed.
End CalibratedShape.

(** ** CalibratedSolver over the reals: what is computed *)

Section GramFacts.
Local Open Scope R_scope.

Lemma mat3_vec_mat3_add_R (G K : mat3 R) v :
  mat3_vec (mat3_add G K) v = add3 (mat3_vec G v) (mat3_vec K v).
Proof.
  destruct G as [[[[a b] c] [[d e] f]] [[g h] i]],
    K as [[[[a' b'] c'] [[d' e'] f']] [[g' h'] i']], v as [[x y] z].
  simpl. vec3_eq; ring.
Qed.

Lemma mat3_vec_mat3_zero_R (v : vec3 R) : mat3_vec mat3_zero v = zero3.
Proof. destruct v as [[x y] z]. simpl. vec3_eq; ring. Qed.

Lemma add3_zero_r_R (v : vec3 R) : add3 v zero3 = v.
Proof. destruct v as [[a b] c]. simpl. vec3_eq; ring. Qed.

Lemma mat3_vec_fold_add_R (l : list (mat3 R)) (G : mat3 R) v :
  mat3_vec (fold_left mat3_add l G) v
  = add3 (mat3_vec G v) (mat3_vec (fold_left mat3_add l mat3_zero) v).
Proof.
  revert G; induction l as [|K l IH]; intros G; cbn [fold_left].
  - now rewrite mat3_vec_mat3_zero_R, add3_zero_r_R.
  - rewrite IH, (IH (mat3_add mat3_zero K)), !mat3_vec_mat3_add_R.
    rewrite mat3_vec_mat3_zero_R, add3_zero_l_R. apply add3_assoc_R.
Qed.

Lemma mat3_vec_outer_R (u v : vec3 R) :
  mat3_vec (outer u u) v = scale3 (dot3 u v) u.
Proof.
  destruct u as [[a b] c], v as [[x y] z]. simpl. vec3_eq; ring.
Qed.

(** [N^T (N v) = (N^T N) v] *)
Lemma lincomb_gram_R (N : list (vec3 R)) (v : vec3 R) :
  lincomb N (map (fun Ni => dot3 Ni v) N) = mat3_vec (gram N) v.
Proof.
  induction N as [|u N IH].
  - unfold gram. cbn [map fold_left].
    now rewrite lincomb_nil_l_R, mat3_vec_mat3_zero_R.
  - simpl map. rewrite lincomb_cons_R, IH. unfold gram.
    cbn [map fold_left].
    rewrite (mat3_vec_fold_add_R _ (mat3_add mat3_zero (outer u u))).
    rewrite mat3_vec_mat3_add_R.
    now rewrite mat3_vec_mat3_zero_R, add3_zero_l_R, mat3_vec_outer_R.
Qed.

(** [X (k b) = k (X b)] *)
Lemma lincomb_scale_R (X : list (vec3 R)) b k :
  lincomb X (map (Rmult k) b) = scale3 k (lincomb X b).
Proof.
  revert b; induction X as [|x X IH]; intros b.
  - now rewrite !lincomb_nil_l_R, scale3_zero3_R.
  - destruct b as [|t b]; simpl map.
    + now rewrite !lincomb_nil_r_R, scale3_zero3_R.
    + rewrite !lincomb_cons_R, IH, scale3_add3_R. f_equal.
      destruct x as [[p q] s]. simpl. vec3_eq; ring.
Qed.

Lemma scale3_scale3_R k l (v : vec3 R) :
  scale3 k (scale3 l v) = scale3 (k * l) v.
Proof. destruct v as [[x y] z]. simpl. vec3_eq; ring. Qed.

Lemma scale3_one_R (v : vec3 R) : scale3 1 v = v.
Proof. destruct v as [[x y] z]. simpl. vec3_eq; ring. Qed.
Lemma add3_comm_R (u v : vec3 R) : add3 u v = add3 v u.
Proof.
  destruct u as [[a b] c], v as [[x y] z]. simpl. vec3_eq; ring.
Qed.

(** A sum of vectors does not depend on the order of its terms. *)
Lemma fold_add3_permutation_R (l l' : list (vec3 R)) :
  Permutation l l' -> fold_left add3 l zero3 = fold_left add3 l' zero3.
Proof.
  induction 1 as [|x l l' _ IH|x y l|l l' l'' _ IH1 _ IH2].
  - reflexivity.
  - cbn [fold_left]. rewrite (fold_add3_R l), (fold_add3_R l'), IH.
    reflexivity.
  - cbn [fold_left].
    rewrite (fold_add3_R l (add3 (add3 zero3 y) x)),
      (fold_add3_R l (add3 (add3 zero3 x) y)).
    f_equal. rewrite !add3_zero_l_R. apply add3_comm_R.
  - now rewrite IH1.
Qed.

Lemma lincomb_stack_R (shots : list (vec3 R * image R)) j :
  lincomb (map fst shots)
    (map (fun s => nth j (ravel (snd s)) 0) shots)
  = fold_left add3
      (map (fun s => scale3 (nth j (ravel (snd s)) 0) (fst s)) shots) zero3.
Proof. unfold lincomb. now rewrite zip_with_map_same. Qed.

Lemma gram_sum_R (N : list (vec3 R)) (v : vec3 R) :
  mat3_vec (gram N) v
  = fold_left add3 (map (fun u => scale3 (dot3 u v) u) N) zero3.
Proof.
  rewrite <- lincomb_gram_R. unfold lincomb. f_equal.
  induction N as [|u N IH]; simpl; congruence.
Qed.
End GramFacts.

Section CalibratedFormula.
Local Open Scope R_scope.

Variable pinv : list (vec3 R) -> list (vec3 R).
Variable lstsq : list (vec3 R) -> matrix R -> list (vec3 R).

Hypothesis pinv_normal :
  forall N b, full_column_rank N -> length b = length N ->
    mat3_vec (gram N) (lincomb (pinv N) b) = lincomb N b.
Hypothesis lstsq_normal :
  forall N B k x, full_column_rank N -> length B = length N ->
    nth_error (lstsq N B) k = Some x ->
    mat3_vec (gram N) x = lincomb N (column k B).
Hypothesis lstsq_shape :
  forall N B, length (lstsq N B) = ncols B.

(** Column [j] of the solution is the solution [x] of the normal
    equations for pixel [j], divided by its norm. *)
Lemma solve_normals_solution N (I : matrix R) p j x :
  full_column_rank N -> length I = length N ->
  (forall row, In row I -> length row = p) -> (j < p)%nat ->
  mat3_vec (gram N) x = lincomb N (column j I) ->
  nth j (solve_normals pinv lstsq N I) zero3
  = if Req_dec_T (norm3 x) 0 then zero3 else scale3 (/ norm3 x) x.
Proof.
  intros Hrank Hlen Hrect Hj Hx.
  assert (HI : I <> []).
  { intros ->. destruct N; [now apply gram_nil_singular_R|discriminate]. }
  assert (Hp : ncols I = p).
  { destruct I as [|row I]; [congruence|]. apply Hrect. now left. }
  assert (Hsol : lincomb (pinv N) (column j I) = x).
  { apply (@mat3_vec_injective_R (gram N)); [exact Hrank|].
    rewrite Hx. apply pinv_normal; [exact Hrank|].
    unfold column. now rewrite length_map. }
  rewrite (@solve_normals_at pinv lstsq pinv_normal lstsq_normal lstsq_shape
             N I p j Hrank Hlen Hrect Hj).
  rewrite nth_albedo by (rewrite Hp; exact Hj).
  now rewrite Hsol.
Qed.

Lemma solution_exists N (b : list R) :
  full_column_rank N ->
  exists x, mat3_vec (gram N) x = lincomb N b.
Proof.
  intros Hrank. exists (mat3_vec (pinv_sym3 (gram N)) (lincomb N b)).
  now apply pinv_sym3_inverse.
Qed.

Lemma column_stack (shots : list (vec3 R * image R)) j :
  column j (map (fun s => ravel (snd s)) shots)
  = map (fun s => nth j (ravel (snd s)) 0) shots.
Proof. unfold column. now rewrite map_map. Qed.

(** X1: for a lighting matrix [N] of column rank 3 the vector returned
    at position [(v, u)] is determined by the intensities of pixel
    [(u, v)] alone: it is [x / |x|] for the solution [x] of the normal
    equations [N^T N x = N^T i], [i] the intensities of that pixel in
    the images of the stack, and the zero vector when [x = 0]. *)
Theorem photometricStereo_least_squares
  (shots : list (vec3 R * image R)) (w h : nat) :
  let N := map fst shots in
  full_column_rank N ->
  (forall s, In s shots ->
             shape (snd s) = (w, h) /\ length (ravel (snd s)) = (w * h)%nat) ->
  exists out,
    photometricStereo pinv lstsq shots = Done out
    /\ forall u v, (u < w)%nat -> (v < h)%nat ->
         exists x,
           mat3_vec (gram N) x
           = lincomb N (map (fun s => nth (u * h + v) (ravel (snd s)) 0)
                            shots)
           /\ grid_at out v u
              = Some (if Req_dec_T (norm3 x) 0 then zero3
                      else scale3 (/ norm3 x) x).
Proof.
  intros N Hrank Hshape.
  assert (Hne : shots <> []).
  { intros ->. now apply gram_nil_singular_R in Hrank. }
  rewrite (photometricStereo_grid pinv lstsq Hne Hshape).
  eexists. split; [reflexivity|]. intros u v Hu Hv.
  destruct (@solution_exists N
              (map (fun s => nth (u * h + v) (ravel (snd s)) 0) shots) Hrank)
    as [x Hx].
  exists x. split; [exact Hx|].
  rewrite grid_at_reshape_swap by assumption. f_equal.
  apply solve_normals_solution with (p := (w * h)%nat); auto.
  - unfold N. now rewrite !length_map.
  - intros row Hrow. apply in_map_iff in Hrow as (s & <- & Hs).
    now apply Hshape.
  - nia.
  - now rewrite column_stack.
Qed.

(** X2: the solver recovers the surface.  If the images follow
    Lambert's law, [I = rho (l . n)] at every pixel for the light [l]
    of the image, an albedo [rho > 0] and a unit normal [n] of the
    pixel, and the lighting matrix has column rank 3, then the vector
    returned at position [(v, u)] is the normal [n] of pixel
    [(u, v)]. *)
Theorem photometricStereo_recovers_normals
  (shots : list (vec3 R * image R)) (w h : nat)
  (rho : nat -> R) (n : nat -> vec3 R) :
  full_column_rank (map fst shots) ->
  (forall s, In s shots ->
             shape (snd s) = (w, h) /\ length (ravel (snd s)) = (w * h)%nat) ->
  (forall j, (j < w * h)%nat -> 0 < rho j /\ norm3 (n j) = 1) ->
  (forall s j, In s shots -> (j < w * h)%nat ->
               nth j (ravel (snd s)) 0 = rho j * dot3 (fst s) (n j)) ->
  exists out,
    photometricStereo pinv lstsq shots = Done out
    /\ forall u v, (u < w)%nat -> (v < h)%nat ->
         grid_at out v u = Some (n (u * h + v)%nat).
Proof.
  intros Hrank Hshape Hsurf Hlambert.
  assert (Hne : shots <> []).
  { intros ->. now apply gram_nil_singular_R in Hrank. }
  rewrite (photometricStereo_grid pinv lstsq Hne Hshape).
  eexists. split; [reflexivity|]. intros u v Hu Hv.
  assert (Hj : (u * h + v < w * h)%nat) by nia.
  set (j := (u * h + v)%nat) in *.
  destruct (Hsurf j Hj) as [Hrho Hunit].
  rewrite grid_at_reshape_swap by assumption. f_equal. fold j.
  rewrite (@solve_normals_solution (map fst shots)
             (map (fun s => ravel (snd s)) shots) (w * h)%nat j
             (scale3 (rho j) (n j))); auto.
  - rewrite norm3_scale3_R, Hunit, Rmult_1_r by lra.
    destruct (Req_dec_T (rho j) 0) as [Hz|_]; [exfalso; lra|].
    rewrite scale3_scale3_R, Rinv_l by lra. apply scale3_one_R.
  - now rewrite !length_map.
  - intros row Hrow. apply in_map_iff in Hrow as (s & <- & Hs).
    now apply Hshape.
  - rewrite column_stack, mat3_vec_scale3_R, <- lincomb_gram_R.
    rewrite <- lincomb_scale_R. f_equal. rewrite !map_map.
    apply map_ext_in. intros s Hs. symmetry. now apply Hlambert.
Qed.

(** X3: the result does not depend on the exposure: multiplying every
    intensity of every image by one factor [k > 0] leaves the returned
    field unchanged. *)
Theorem photometricStereo_exposure_invariant
  (shots : list (vec3 R * image R)) (w h : nat) (k : R) :
  let brighten (s : vec3 R * image R) :=
    (fst s, {| shape := shape (snd s);
               ravel := map (Rmult k) (ravel (snd s)) |}) in
  0 < k ->
  full_column_rank (map fst shots) ->
  (forall s, In s shots ->
             shape (snd s) = (w, h) /\ length (ravel (snd s)) = (w * h)%nat) ->
  photometricStereo pinv lstsq (map brighten shots)
  = photometricStereo pinv lstsq shots.
Proof.
  intros brighten Hk Hrank Hshape.
  assert (Hne : shots <> []).
  { intros ->. now apply gram_nil_singular_R in Hrank. }
  assert (Hne' : map brighten shots <> []) by (destruct shots; simpl; congruence).
  assert (Hshape' : forall s, In s (map brighten shots) ->
            shape (snd s) = (w, h) /\ length (ravel (snd s)) = (w * h)%nat).
  { intros s Hs. apply in_map_iff in Hs as (s0 & <- & Hs0). simpl.
    rewrite length_map. now apply Hshape. }
  rewrite (photometricStereo_grid pinv lstsq Hne Hshape).
  rewrite (photometricStereo_grid pinv lstsq Hne' Hshape').
  f_equal. apply reshape_swap_ext. intros j Hj.
  assert (HN : map fst (map brighten shots) = map fst shots)
    by (rewrite map_map; reflexivity).
  rewrite HN.
  destruct (@solution_exists (map fst shots)
              (column j (map (fun s => ravel (snd s)) shots)) Hrank)
    as [x Hx].
  assert (Hrect : forall row, In row (map (fun s => ravel (snd s)) shots) ->
                              length row = (w * h)%nat).
  { intros row Hrow. apply in_map_iff in Hrow as (s & <- & Hs).
    now apply Hshape. }
  assert (Hrect' : forall row,
            In row (map (fun s => ravel (snd s)) (map brighten shots)) ->
            length row = (w * h)%nat).
  { intros row Hrow. apply in_map_iff in Hrow as (s & <- & Hs).
    now apply Hshape'. }
  rewrite (@solve_normals_solution (map fst shots)
             (map (fun s => ravel (snd s)) shots) (w * h)%nat j x);
    auto; [| now rewrite !length_map].
  rewrite (@solve_normals_solution (map fst shots)
             (map (fun s => ravel (snd s)) (map brighten shots))
             (w * h)%nat j (scale3 k x));
    auto; [| now rewrite !length_map |].
  - rewrite norm3_scale3_R by lra.
    destruct (Req_dec_T (norm3 x) 0) as [Hz|Hnz];
      destruct (Req_dec_T (k * norm3 x) 0) as [Hz'|Hnz']; try reflexivity.
    + exfalso. apply Hnz'. rewrite Hz. ring.
    + exfalso. apply Rmult_integral in Hz'. destruct Hz'; [lra|contradiction].
    + rewrite scale3_scale3_R. f_equal. field. split; [exact Hnz|lra].
  - rewrite mat3_vec_scale3_R, Hx, <- lincomb_scale_R. f_equal.
    rewrite !column_stack, !map_map.
    apply map_ext_in. intros s Hs. unfold brighten. simpl.
    rewrite (nth_indep (map (Rmult k) (ravel (snd s))) 0 (k * 0))
      by (rewrite length_map, (proj2 (Hshape s Hs)); exact Hj).
    symmetry. apply (map_nth (Rmult k)).
Qed.
(** X4: the result does not depend on the order of the images: the
    solver returns the same field on any permutation of the images
    (each with its lighting vector). *)
Theorem photometricStereo_order_independent
  (shots shots' : list (vec3 R * image R)) (w h : nat) :
  Permutation shots shots' ->
  full_column_rank (map fst shots) ->
  (forall s, In s shots ->
             shape (snd s) = (w, h) /\ length (ravel (snd s)) = (w * h)%nat) ->
  photometricStereo pinv lstsq shots'
  = photometricStereo pinv lstsq shots.
Proof.
  intros Hperm Hrank Hshape.
  assert (Hne : shots <> []).
  { intros ->. now apply gram_nil_singular_R in Hrank. }
  assert (Hne' : shots' <> []).
  { intros ->. apply Permutation_sym, Permutation_nil in Hperm.
    contradiction. }
  assert (Hshape' : forall s, In s shots' ->
            shape (snd s) = (w, h) /\ length (ravel (snd s)) = (w * h)%nat).
  { intros s Hs. apply Hshape.
    now apply (Permutation_in _ (Permutation_sym Hperm)). }
  assert (Hgram : forall v, mat3_vec (gram (map fst shots')) v
                            = mat3_vec (gram (map fst shots)) v).
  { intros v. rewrite !gram_sum_R. apply fold_add3_permutation_R.
    apply Permutation_map, Permutation_map, Permutation_sym, Hperm. }
  assert (Hrank' : full_column_rank (map fst shots')).
  { unfold full_column_rank in *. intros Hdet. apply Hrank.
    assert (Heq : gram (map fst shots) = gram (map fst shots')).
    { pose proof (Hgram (1, 0, 0)) as E1. pose proof (Hgram (0, 1, 0)) as E2.
      pose proof (Hgram (0, 0, 1)) as E3.
      destruct (gram (map fst shots)) as [[[[a b] c] [[d e] f]] [[g i] k]].
      destruct (gram (map fst shots')) as [[[[a' b'] c'] [[d' e'] f']] [[g' i'] k']].
      simpl in E1, E2, E3.
      injection E1 as ? ? ?. injection E2 as ? ? ?. injection E3 as ? ? ?.
      repeat apply f_equal2; lra. }
    now rewrite Heq. }
  rewrite (photometricStereo_grid pinv lstsq Hne Hshape).
  rewrite (photometricStereo_grid pinv lstsq Hne' Hshape').
  f_equal. apply reshape_swap_ext. intros j Hj.
  destruct (@solution_exists (map fst shots)
              (column j (map (fun s => ravel (snd s)) shots)) Hrank)
    as [x Hx].
  assert (Hl : length (map (fun s => ravel (snd s)) shots)
               = length (map fst shots)) by now rewrite !length_map.
  assert (Hl' : length (map (fun s => ravel (snd s)) shots')
                = length (map fst shots')) by now rewrite !length_map.
  assert (Hr : forall row, In row (map (fun s => ravel (snd s)) shots) ->
                           length row = (w * h)%nat).
  { intros row Hrow. apply in_map_iff in Hrow as (s & <- & Hs).
    now apply Hshape. }
  assert (Hr' : forall row, In row (map (fun s => ravel (snd s)) shots') ->
                            length row = (w * h)%nat).
  { intros row Hrow. apply in_map_iff in Hrow as (s & <- & Hs).
    now apply Hshape'. }
  assert (Hx' : mat3_vec (gram (map fst shots')) x
                = lincomb (map fst shots')
                    (column j (map (fun s => ravel (snd s)) shots'))).
  { rewrite Hgram, Hx, !column_stack, !lincomb_stack_R.
    apply fold_add3_permutation_R. now apply Permutation_map. }
  rewrite (@solve_normals_solution _ _ _ _ x Hrank Hl Hr Hj Hx).
  rewrite (@solve_normals_solution _ _ _ _ x Hrank' Hl' Hr' Hj Hx').
  reflexivity.
Qed.
End CalibratedFormula.

Lemma three_shots_full_rank :
  full_column_rank (map fst Inputs.three_shots).
Proof. unfold full_column_rank. simpl. lra. Qed.

Lemma three_shots_shape (s : vec3 R * image R) :
  In s Inputs.three_shots ->
  shape (snd s) = (1, 1) /\ length (ravel (snd s)) = 1 * 1.
Proof. intros [<-|[<-|[<-|[]]]]; split; reflexivity. Qed.

Lemma photometricStereo_least_squares_witness :
  exists out,
    photometricStereo pinv_ref lstsq_ref Inputs.three_shots = Done out
    /\ forall u v, u < 1 -> v < 1 ->
         exists x,
           mat3_vec (gram (map fst Inputs.three_shots)) x
           = lincomb (map fst Inputs.three_shots)
               (map (fun s => nth (u * 1 + v) (ravel (snd s)) 0%R)
                    Inputs.three_shots)
           /\ grid_at out v u
              = Some (if Req_dec_T (norm3 x) 0 then zero3
                      else scale3 (/ norm3 x)%R x).
Proof.
  apply (@photometricStereo_least_squares pinv_ref lstsq_ref pinv_ref_normal
           lstsq_ref_normal lstsq_ref_shape Inputs.three_shots 1 1).
  - exact three_shots_full_rank.
  - exact three_shots_shape.
Defined.

Lemma photometricStereo_recovers_normals_witness :
  exists out,
    photometricStereo pinv_ref lstsq_ref Inputs.three_shots = Done out
    /\ forall u v, u < 1 -> v < 1 ->
         grid_at out v u = Some (3 / 5, 0, 4 / 5)%R.
Proof.
  apply (@photometricStereo_recovers_normals pinv_ref lstsq_ref
           pinv_ref_normal lstsq_ref_normal lstsq_ref_shape
           Inputs.three_shots 1 1 (fun _ => 5%R)
           (fun _ => (3 / 5, 0, 4 / 5)%R)).
  - exact three_shots_full_rank.
  - exact three_shots_shape.
  - intros j _. split; [lra|]. simpl.
    replace (3 / 5 * (3 / 5) + 0 * 0 + 4 / 5 * (4 / 5))%R with 1%R by field.
    apply sqrt_1.
  - intros s j Hs Hj. assert (j = 0) as -> by lia.
    destruct Hs as [<-|[<-|[<-|[]]]]; simpl; field.
Defined.

Lemma photometricStereo_exposure_invariant_witness :
  photometricStereo pinv_ref lstsq_ref
    (map (fun s : vec3 R * image R =>
            (fst s, {| shape := shape (snd s);
                       ravel := map (Rmult 2) (ravel (snd s)) |}))
         Inputs.three_shots)
  = photometricStereo pinv_ref lstsq_ref Inputs.three_shots.
Proof.
  apply (@photometricStereo_exposure_invariant pinv_ref lstsq_ref
           pinv_ref_normal lstsq_ref_normal lstsq_ref_shape
           Inputs.three_shots 1 1 2%R).
  - lra.
  - exact three_shots_full_rank.
  - exact three_shots_shape.
Defined.

Lemma photometricStereo_order_independent_witness :
  photometricStereo pinv_ref lstsq_ref (rev Inputs.three_shots)
  = photometricStereo pinv_ref lstsq_ref Inputs.three_shots.
Proof.
  apply (@photometricStereo_order_independent pinv_ref lstsq_ref
           pinv_ref_normal lstsq_ref_normal lstsq_ref_shape
           Inputs.three_shots (rev Inputs.three_shots) 1 1).
  - apply Permutation_rev.
  - exact three_shots_full_rank.
  - exact three_shots_shape.
Defined.

(** ** The lighting file and the files of [main] *)

Section FilesFacts.
Context {T : Type} `{Scalar T}.
Variable pinv : list (vec3 T) -> list (vec3 T).
Variable lstsq : list (vec3 T) -> matrix T -> list (vec3 T).
Variable getLightning : String.string -> String.string -> option (vec3 T).
Variable getImage : String.string -> image T.

Lemma lookup_lights_found (lightning : String.string -> option (vec3 T))
  (light : String.string -> vec3 T) names :
  (forall x, In x names -> lightning x = Some (light x)) ->
  lookup_lights lightning names = inl (map light names).
Proof.
  induction names as [|x names IH]; intros Hall; simpl; [reflexivity|].
  rewrite (Hall x (or_introl eq_refl)), IH; [reflexivity|].
  intros y Hy. apply Hall. now right.
Qed.

Lemma lookup_lights_missing (lightning : String.string -> option (vec3 T))
  names key :
  lookup_lights lightning names = inr key
  <-> exists before after,
        names = before ++ key :: after
        /\ (forall x, In x before -> lightning x <> None)
        /\ lightning key = None.
Proof.
  split.
  - revert key; induction names as [|x names IH]; intros key; simpl;
      [discriminate|].
    destruct (lightning x) as [l|] eqn:Hx.
    + destruct (lookup_lights lightning names) as [N|k] eqn:Hl;
        [discriminate|].
      intros Heq. injection Heq as ->.
      destruct (IH key eq_refl) as (before & after & -> & Hb & Hk).
      exists (x :: before), after. split; [reflexivity|]. split; [|exact Hk].
      intros y [<-|Hy]; [congruence|now apply Hb].
    + intros Heq. injection Heq as <-.
      exists [], names. split; [reflexivity|]. split; [|exact Hx].
      intros y [].
  - intros (before & after & -> & Hb & Hk).
    induction before as [|x before IH]; simpl.
    + now rewrite Hk.
    + destruct (lightning x) as [l|] eqn:Hx.
      * rewrite IH; [reflexivity|]. intros y Hy. apply Hb. now right.
      * exfalso. apply (Hb x); [now left|exact Hx].
Qed.

(** X7: when the lighting file holds a vector for every image name, the
    solver by file name is the solver on the images paired with their
    lighting vectors. *)
Theorem photometricStereo_files_found lightning_filename names
  (light : String.string -> vec3 T) :
  (forall x, In x names -> getLightning lightning_filename x = Some (light x)) ->
  photometricStereo_files pinv lstsq getLightning getImage
    lightning_filename names
  = Ran (photometricStereo pinv lstsq
           (map (fun x => (light x, getImage x)) names)).
Proof.
  intros Hall. unfold photometricStereo_files, photometricStereo.
  rewrite !map_map. cbn [snd fst].
  change (map (fun x => ravel (getImage x)) names)
    with (map (fun x => ravel (snd (light x, getImage x))) names).
  destruct (vstack_cases
              (map (fun x => ravel (snd (light x, getImage x))) names))
    as [(Hv & _)|(Hv & _)]; rewrite Hv; [|reflexivity].
  rewrite (lookup_lights_found _ light names Hall). simpl bind.
  rewrite <- (map_map (fun x => (light x, getImage x)) snd), map_map.
  cbn [snd]. destruct (shape _) as [w h]. reflexivity.
Qed.

(** X8: a [KeyError] is raised exactly when the images can be stacked
    (all of one size) and some image name has no entry in the lighting
    file; its key is the first such name.  Images of different sizes
    are reported first, as a [ValueError]. *)
Theorem photometricStereo_files_key_error lightning_filename names key :
  photometricStereo_files pinv lstsq getLightning getImage
    lightning_filename names = KeyError key
  <-> (forall x y, In x names -> In y names ->
         length (ravel (getImage x)) = length (ravel (getImage y)))
      /\ exists before after,
           names = before ++ key :: after
           /\ (forall x, In x before ->
                         getLightning lightning_filename x <> None)
           /\ getLightning lightning_filename key = None.
Proof.
  unfold photometricStereo_files. rewrite map_map.
  destruct (vstack_cases (map (fun x => ravel (getImage x)) names))
    as [(Hv & Hne & Hsame)|(Hv & Hbad)]; rewrite Hv.
  - rewrite <- lookup_lights_missing.
    destruct (lookup_lights _ names) as [N|k].
    + destruct (shape _) as [w h]. split; [discriminate|].
      intros [_ Hk]. discriminate.
    + split.
      * intros Heq. injection Heq as ->. split; [|reflexivity].
        intros x y Hx Hy. apply Hsame; apply in_map_iff; eauto.
      * intros [_ Hk]. injection Hk as ->. reflexivity.
  - split; [discriminate|].
    intros (Hsame & before & after & -> & _).
    exfalso. destruct Hbad as [Hnil|(r1 & r2 & H1 & H2 & Hd)].
    + destruct before; discriminate.
    + apply in_map_iff in H1 as (x & <- & Hx).
      apply in_map_iff in H2 as (y & <- & Hy).
      apply Hd. now apply Hsame.
Qed.

(** X9: after a run of [main] that saved [out.png], [data.pkl] holds a
    field and [out.png] its colours; and every later run that gets as
    far, whatever lighting file and images it names, changes no file:
    it colours the pickled field of [data.pkl] again and solves
    nothing. *)
Theorem main_io_serves_cache (a1 a2 : args) (fs fs1 : files T) :
  main a1 = SaveOut -> main a2 = SaveOut ->
  main_io pinv lstsq getLightning getImage a1 fs = Ran (Done fs1) ->
  (exists normals,
      data_pkl fs1 = Some normals
      /\ out_png fs1 = Some (colorizeNormals normals))
  /\ main_io pinv lstsq getLightning getImage a2 fs1 = Ran (Done fs1).
Proof.
  intros H1 H2 Hrun.
  assert (Hinv : exists normals,
             data_pkl fs1 = Some normals
             /\ out_png fs1 = Some (colorizeNormals normals)).
  { unfold main_io in Hrun. rewrite H1 in Hrun.
    destruct (data_pkl fs) as [normals|] eqn:Hd.
    - injection Hrun as <-. simpl. eauto.
    - destruct (photometricStereo_files _ _ _ _ _ _) as [[normals|e|k]|key];
        simpl in Hrun; try discriminate.
      injection Hrun as <-. simpl. eauto. }
  split; [exact Hinv|]. destruct Hinv as (normals & Hd & Ho).
  unfold main_io. rewrite H2, Hd.
  destruct fs1 as [d m o p]. simpl in *. now subst.
Qed.
Lemma main_SaveMap a : main a = SaveMap <-> generate_map a = true.
Proof.
  unfold main. destruct (generate_map a); [tauto|].
  destruct (negb _); split; discriminate.
Qed.

(** X10: what a completed run of [main] writes.  A field that
    [data.pkl] holds is never replaced.  With [--generate-map] the run
    saves the sphere map of resolution 600 as [map.png] and does
    nothing else, whatever else the command line names; without it
    [map.png] is left as it is.  Lines are printed only by the usage
    message, which changes no file. *)
Theorem main_io_writes (a : args) (fs fs' : files T) :
  main_io pinv lstsq getLightning getImage a fs = Ran (Done fs') ->
  (forall normals, data_pkl fs = Some normals -> data_pkl fs' = Some normals)
  /\ (generate_map a = true ->
      fs' = {| data_pkl := data_pkl fs;
               map_png := Some (generateNormalMap default_dims);
               out_png := out_png fs; printed := printed fs |})
  /\ (generate_map a = false -> map_png fs' = map_png fs)
  /\ (printed fs' <> printed fs ->
      fs' = {| data_pkl := data_pkl fs; map_png := map_png fs;
               out_png := out_png fs; printed := printed fs ++ [usage] |}).
Proof.
  unfold main_io. pose proof (main_SaveMap a) as Hmap.
  destruct (main a) eqn:Hm.
  - intros Heq. injection Heq as <-. simpl.
    assert (Hg : generate_map a = true) by now apply Hmap.
    rewrite Hg. repeat split; auto; try discriminate. congruence.
  - intros Heq. injection Heq as <-. simpl.
    assert (Hg : generate_map a <> true) by (intros Hc; apply Hmap in Hc;
                                             discriminate).
    repeat split; auto; congruence.
  - assert (Hg : generate_map a <> true) by (intros Hc; apply Hmap in Hc;
                                             discriminate).
    destruct (data_pkl fs) as [normals|] eqn:Hd.
    + intros Heq. injection Heq as <-. simpl.
      repeat split; auto; congruence.
    + destruct (photometricStereo_files _ _ _ _ _ _) as [[normals|e|k]|key];
        simpl bind; try discriminate.
      intros Heq. injection Heq as <-. simpl.
      repeat split; auto; congruence.
Qed.
End FilesFacts.

Lemma main_io_serves_cache_witness :
  (exists normals,
      data_pkl Scene.after_first_run = Some normals
      /\ out_png Scene.after_first_run = Some (colorizeNormals normals))
  /\ main_io pinv_ref lstsq_ref Scene.lights Scene.pixels Scene.other_args
       Scene.after_first_run
     = Ran (Done Scene.after_first_run).
Proof.
  apply (@main_io_serves_cache float _ pinv_ref lstsq_ref Scene.lights
           Scene.pixels Scene.three_image_args Scene.other_args
           Scene.no_files Scene.after_first_run).
  - reflexivity.
  - reflexivity.
  - vm_compute. reflexivity.
Defined.

Lemma photometricStereo_files_found_witness :
  photometricStereo_files pinv_ref lstsq_ref Scene.lights Scene.pixels
    Scene.lights_json
    (image_names Scene.three_image_args)
  = Ran (photometricStereo pinv_ref lstsq_ref
           (map (fun x => (match Scene.lights
                                   Scene.lights_json x
                           with Some l => l | None => zero3 end,
                           Scene.pixels x))
                (image_names Scene.three_image_args))).
Proof.
  apply (@photometricStereo_files_found float _ pinv_ref lstsq_ref
           Scene.lights Scene.pixels Scene.lights_json
           (image_names Scene.three_image_args)
           (fun x => match Scene.lights
                             Scene.lights_json x
                     with Some l => l | None => zero3 end)).
  intros x [<-|[<-|[<-|[]]]]; reflexivity.
Defined.

Lemma main_io_writes_witness :
  (forall normals,
      data_pkl Scene.after_first_run = Some normals ->
      data_pkl Scene.after_map_run = Some normals)
  /\ (generate_map Scene.map_args = true ->
      Scene.after_map_run
      = {| data_pkl := data_pkl Scene.after_first_run;
           map_png := Some (generateNormalMap default_dims);
           out_png := out_png Scene.after_first_run;
           printed := printed Scene.after_first_run |})
  /\ (generate_map Scene.map_args = false ->
      map_png Scene.after_map_run = map_png Scene.after_first_run)
  /\ (printed Scene.after_map_run <> printed Scene.after_first_run ->
      Scene.after_map_run
      = {| data_pkl := data_pkl Scene.after_first_run;
           map_png := map_png Scene.after_first_run;
           out_png := out_png Scene.after_first_run;
           printed := printed Scene.after_first_run ++ [usage] |}).
Proof.
  apply (@main_io_writes float _ pinv_ref lstsq_ref Scene.lights
           Scene.pixels Scene.map_args Scene.after_first_run
           Scene.after_map_run).
  reflexivity.
Defined.

(** ** NormalColorizer over the reals: range and decoding *)

Section ColourFacts.
Local Open Scope R_scope.

Lemma norm3_sqr_R (v : vec3 R) :
  norm3 v * norm3 v = dot3 v v.
Proof.
  destruct v as [[x y] z]. simpl. apply sqrt_sqrt. nra.
Qed.

(** Each component of a vector is bounded by the norm. *)
Lemma component_le_norm3_R (x y z : R) :
  let n := norm3 (x, y, z) in
  (- n <= x <= n) /\ (- n <= y <= n) /\ (- n <= z <= n).
Proof.
  intros n. pose proof (norm3_sqr_R (x, y, z)) as Hs. fold n in Hs.
  simpl in Hs. pose proof (norm3_nonneg_R (x, y, z)) as Hp. fold n in Hp.
  repeat split; nra.
Qed.

Lemma colorize_range_R (v : vec3 R) :
  norm3 v <> 0 ->
  let '(r, g, b) := colorize v in
  0 <= r <= 1 /\ 0 <= g <= 1 /\ 0 <= b <= 1.
Proof.
  intros Hn. destruct v as [[x y] z]. unfold colorize.
  set (n := norm3 (x, y, z)) in *.
  pose proof (component_le_norm3_R x y z) as Hc. fold n in Hc. cbv zeta in Hc.
  pose proof (norm3_nonneg_R (x, y, z)) as Hp. fold n in Hp.
  assert (Hpos : 0 < n) by lra.
  assert (Hi : 0 < / n) by now apply Rinv_0_lt_compat.
  assert (Hone : n * / n = 1) by now apply Rinv_r.
  simpl. unfold Rdiv.
  destruct Hc as [[Hx1 Hx2] [[Hy1 Hy2] [Hz1 Hz2]]].
  assert (Hb : forall t, - n <= t <= n -> 0 <= (t * / n + 1) * / 2 <= 1).
  { intros t [Ht1 Ht2].
    pose proof (Rmult_le_pos (t + n) (/ n) ltac:(lra) ltac:(lra)) as H1.
    pose proof (Rmult_le_pos (n - t) (/ n) ltac:(lra) ltac:(lra)) as H2.
    nra. }
  repeat split; apply Hb; split; assumption.
Qed.

Lemma colorize_decode_R (v : vec3 R) :
  let '(r, g, b) := colorize v in
  (2 * r - 1, 2 * g - 1, 2 * b - 1) = scale3 (/ norm3 v) v.
Proof.
  destruct v as [[x y] z]. unfold colorize.
  set (n := norm3 (x, y, z)). simpl. unfold Rdiv.
  vec3_eq; lra.
Qed.
End ColourFacts.

(** X11: over the reals every channel of the colour of a vector of nonzero
    norm lies between 0 and 1. *)
Theorem colorizeNormals_range (normals : normal_field R) a b v :
  grid_at normals a b = Some v -> norm3 v <> 0%R ->
  exists r g bl,
    grid_at (colorizeNormals normals) a b = Some (r, g, bl)
    /\ (0 <= r <= 1)%R /\ (0 <= g <= 1)%R /\ (0 <= bl <= 1)%R.
Proof.
  intros Hv Hn. rewrite colorizeNormals_at, Hv. cbn [option_map].
  pose proof (@colorize_range_R v Hn) as Hr.
  destruct (colorize v) as [[r g] bl]. exists r, g, bl. now split.
Qed.

Lemma colorizeNormals_range_witness :
  exists r g bl,
    grid_at (colorizeNormals [[(3, 0, 4)%R]]) 0 0 = Some (r, g, bl)
    /\ (0 <= r <= 1)%R /\ (0 <= g <= 1)%R /\ (0 <= bl <= 1)%R.
Proof.
  apply (@colorizeNormals_range [[(3, 0, 4)%R]] 0 0 (3, 0, 4)%R).
  - reflexivity.
  - simpl. intros H0. apply sqrt_eq_0 in H0; lra.
Defined.

(** X12: the colour encodes the direction of the vector: [2 c - 1],
    channel by channel, is the vector divided by its norm, a vector of
    norm 1, and it is the vector itself when that has norm 1. *)
Theorem colorizeNormals_decodes (normals : normal_field R) a b v :
  grid_at normals a b = Some v -> norm3 v <> 0%R ->
  exists r g bl,
    grid_at (colorizeNormals normals) a b = Some (r, g, bl)
    /\ (2 * r - 1, 2 * g - 1, 2 * bl - 1)%R = scale3 (/ norm3 v)%R v
    /\ norm3 (2 * r - 1, 2 * g - 1, 2 * bl - 1)%R = 1%R
    /\ (norm3 v = 1%R -> (2 * r - 1, 2 * g - 1, 2 * bl - 1)%R = v).
Proof.
  intros Hv Hn. rewrite colorizeNormals_at, Hv. cbn [option_map].
  pose proof (colorize_decode_R v) as Hd.
  destruct (colorize v) as [[r g] bl]. exists r, g, bl.
  split; [reflexivity|]. split; [exact Hd|]. split.
  - rewrite Hd. now apply norm3_normalised_R.
  - intros H1. rewrite Hd, H1. destruct v as [[x y] z]. simpl.
    vec3_eq; field.
Qed.

Lemma colorizeNormals_decodes_witness :
  exists r g bl,
    grid_at (colorizeNormals [[(3, 0, 4)%R]]) 0 0 = Some (r, g, bl)
    /\ (2 * r - 1, 2 * g - 1, 2 * bl - 1)%R
       = scale3 (/ norm3 (3, 0, 4)%R)%R (3, 0, 4)%R
    /\ norm3 (2 * r - 1, 2 * g - 1, 2 * bl - 1)%R = 1%R
    /\ (norm3 (3, 0, 4)%R = 1%R
        -> (2 * r - 1, 2 * g - 1, 2 * bl - 1)%R = (3, 0, 4)%R).
Proof.
  apply (@colorizeNormals_decodes [[(3, 0, 4)%R]] 0 0 (3, 0, 4)%R).
  - reflexivity.
  - simpl. intros H0. apply sqrt_eq_0 in H0; lra.
Defined.

(** ** SphereNormalGenerator: shape, pixels and range *)

Lemma In_zip_with {A B C : Type} (f : A -> B -> C) l1 l2 c :
  In c (zip_with f l1 l2) -> exists a b, In a l1 /\ In b l2 /\ c = f a b.
Proof.
  revert l2; induction l1 as [|a l1 IH]; intros [|b l2] Hin; simpl in *;
    try contradiction.
  destruct Hin as [<-|Hin].
  - exists a, b. auto.
  - destruct (IH _ Hin) as (a' & b' & Ha & Hb & ->). exists a', b'. auto.
Qed.

Section SphereShape.
Context {T : Type} `{Scalar T}.

Lemma length_swapaxes01_tab {A B C : Type} (d : C) (l1 : list A)
  (l2 : list B) (F : A -> B -> C) :
  l1 <> [] -> length (swapaxes01 d (tab l1 l2 F)) = length l2.
Proof.
  intros Hne. unfold swapaxes01, tab. rewrite length_map, length_seq.
  destruct l1; [congruence|]. simpl. now rewrite length_map.
Qed.

Lemma generateNormalMap_length dims :
  length (generateNormalMap (T := T) dims) = dims.
Proof.
  unfold generateNormalMap. rewrite sphereNormals_tab.
  set (lin := linspace (- s_one)%S s_one dims).
  assert (Hl : length lin = dims) by apply length_linspace.
  unfold gmap2. rewrite length_zip_with.
  rewrite colorizeNormals_pointwise. unfold gmap at 1.
  rewrite length_map. unfold tab at 1. rewrite length_map, Hl.
  destruct lin as [|x lin'] eqn:E.
  - simpl in Hl. subst dims. reflexivity.
  - rewrite length_swapaxes01_tab by discriminate. rewrite Hl. lia.
Qed.

Lemma generateNormalMap_rows dims row :
  In row (generateNormalMap (T := T) dims) -> length row = dims.
Proof.
  unfold generateNormalMap. rewrite sphereNormals_tab.
  set (lin := linspace (- s_one)%S s_one dims).
  assert (Hl : length lin = dims) by apply length_linspace.
  intros Hin. apply In_zip_with in Hin as (ra & rb & Ha & Hb & ->).
  rewrite length_zip_with.
  unfold tab in Ha. apply in_map_iff in Ha as (x & <- & _).
  rewrite length_map, Hl.
  rewrite colorizeNormals_pointwise in Hb. unfold gmap in Hb.
  apply in_map_iff in Hb as (rc & <- & Hc). rewrite length_map.
  unfold swapaxes01 in Hc. apply in_map_iff in Hc as (j & <- & _).
  rewrite length_map. unfold tab. rewrite length_map, Hl. lia.
Qed.

(** X13: for every resolution the map is a square array of [dims] rows of
    [dims] pixels. *)
Theorem generateNormalMap_shape dims :
  length (generateNormalMap (T := T) dims) = dims
  /\ Forall (fun row => length row = dims) (generateNormalMap (T := T) dims).
Proof.
  split; [apply generateNormalMap_length|].
  apply Forall_forall. apply generateNormalMap_rows.
Qed.
End SphereShape.

Section SpherePixels.
Local Open Scope R_scope.

(** The abscissa of index [a] on the grid of resolution [dims]. *)
Lemma linspace_coordinate_R (dims a : nat) :
  (2 <= dims)%nat -> (a < dims)%nat ->
  nth_error (linspace (-1) 1 dims) a
  = Some (2 * INR a / INR (dims - 1) - 1).
Proof.
  intros Hd Ha.
  assert (Hn : INR (dims - 1) <> 0) by (apply not_0_INR; lia).
  destruct (Nat.eq_dec a (dims - 1)) as [->|Hne].
  - rewrite (nth_error_linspace_last (T := R)) by lia.
    f_equal. field. exact Hn.
  - rewrite (nth_error_linspace_inner (T := R)) by lia.
    f_equal. simpl. unfold Rdiv. ring.
Qed.

(** Inside the unit disc the normal has norm 1. *)
Lemma norm3_normal_at_R (x y : R) :
  x * x + y * y <= 1 ->
  normal_at x y = (x, - y, R_sqrt.sqrt (1 - x * x - y * y))
  /\ norm3 (normal_at x y) = 1.
Proof.
  intros Hin. unfold normal_at. simpl s_leb.
  destruct (Rle_dec 0 (1 - x * x - y * y)) as [Hz|Hz]; [|exfalso; lra].
  split; [reflexivity|]. simpl.
  rewrite sqrt_sqrt by lra.
  replace (x * x + - y * - y + (1 - x * x - y * y)) with 1 by ring.
  apply sqrt_1.
Qed.

(** The pixel of a grid point of abscissa [x] and ordinate [y]. *)
Lemma generateNormalMap_value_R (x y : R) :
  (if s_leb s_zero (s_one - y * y - x * x)%S
   then colorize (normal_at x y) else zero3)
  = if Rle_dec (x * x + y * y) 1
    then ((x + 1) / 2, (1 - y) / 2,
          (R_sqrt.sqrt (1 - x * x - y * y) + 1) / 2)
    else (0, 0, 0).
Proof.
  simpl s_leb.
  destruct (Rle_dec 0 (1 - y * y - x * x)) as [Hz|Hz];
    destruct (Rle_dec (x * x + y * y) 1) as [Hd|Hd]; try (exfalso; lra);
    [|reflexivity].
  destruct (@norm3_normal_at_R x y Hd) as [Hn H1].
  unfold colorize. rewrite H1, Hn. simpl. unfold Rdiv.
  vec3_eq; field.
Qed.

(** X14: the pixel of index [(a, b)] of the map of resolution [dims], over
    the reals.  With [x = 2 a / (dims - 1) - 1] and
    [y = 2 b / (dims - 1) - 1]: inside the unit disc the colour is
    [((x + 1) / 2, (1 - y) / 2, (sqrt(1 - x^2 - y^2) + 1) / 2)], outside
    it is (0, 0, 0). *)
Theorem generateNormalMap_pixel (dims a b : nat) :
  (2 <= dims)%nat -> (a < dims)%nat -> (b < dims)%nat ->
  let x := 2 * INR a / INR (dims - 1) - 1 in
  let y := 2 * INR b / INR (dims - 1) - 1 in
  (x * x + y * y <= 1 ->
   grid_at (generateNormalMap dims) a b
   = Some ((x + 1) / 2, (1 - y) / 2,
           (R_sqrt.sqrt (1 - x * x - y * y) + 1) / 2))
  /\ (1 < x * x + y * y ->
      grid_at (generateNormalMap dims) a b = Some (0, 0, 0)).
Proof.
  intros Hd Ha Hb x y.
  pose proof (@linspace_coordinate_R dims a Hd Ha) as Hx.
  pose proof (@linspace_coordinate_R dims b Hd Hb) as Hy.
  fold x in Hx. fold y in Hy.
  rewrite (@generateNormalMap_at R _ dims a b x y Hx Hy).
  rewrite generateNormalMap_value_R.
  split; intros Hc; destruct (Rle_dec (x * x + y * y) 1); try reflexivity;
    exfalso; lra.
Qed.

(** X15: every channel of every pixel of the map lies between 0 and 1. *)
Theorem generateNormalMap_range (dims a b : nat) :
  (a < dims)%nat -> (b < dims)%nat ->
  exists r g bl,
    grid_at (generateNormalMap (T := R) dims) a b = Some (r, g, bl)
    /\ 0 <= r <= 1 /\ 0 <= g <= 1 /\ 0 <= bl <= 1.
Proof.
  intros Ha Hb.
  pose proof (length_linspace (-1)%R 1%R dims) as Hl.
  destruct (nth_error (linspace (-1) 1 dims) a) as [x|] eqn:Hx;
    [| apply nth_error_None in Hx; lia].
  destruct (nth_error (linspace (-1) 1 dims) b) as [y|] eqn:Hy;
    [| apply nth_error_None in Hy; lia].
  rewrite (@generateNormalMap_at R _ dims a b x y Hx Hy).
  rewrite generateNormalMap_value_R.
  destruct (Rle_dec (x * x + y * y) 1) as [Hd|Hd].
  - do 3 eexists. split; [reflexivity|].
    assert (Hs : 0 <= R_sqrt.sqrt (1 - x * x - y * y) <= 1).
    { split; [apply sqrt_pos|].
      rewrite <- sqrt_1 at 2. apply sqrt_le_1_alt. nra. }
    repeat split; nra.
  - exists 0, 0, 0. split; [reflexivity|]. lra.
Qed.
End SpherePixels.

Lemma generateNormalMap_pixel_witness :
  let x := (2 * INR 1 / INR (3 - 1) - 1)%R in
  let y := (2 * INR 1 / INR (3 - 1) - 1)%R in
  ((x * x + y * y <= 1)%R ->
   grid_at (generateNormalMap 3) 1 1
   = Some ((x + 1) / 2, (1 - y) / 2,
           (R_sqrt.sqrt (1 - x * x - y * y) + 1) / 2)%R)
  /\ ((1 < x * x + y * y)%R ->
      grid_at (generateNormalMap (T := R) 3) 1 1 = Some (0, 0, 0)%R).
Proof. apply (@generateNormalMap_pixel 3 1 1); lia. Defined.

Lemma generateNormalMap_range_witness :
  exists r g bl,
    grid_at (generateNormalMap (T := R) 3) 1 1 = Some (r, g, bl)
    /\ (0 <= r <= 1)%R /\ (0 <= g <= 1)%R /\ (0 <= bl <= 1)%R.
Proof. apply (@generateNormalMap_range 3 1 1); lia. Defined.

(** ** UncalibratedFactorizer over the reals: normalisation, Q and B *)

Section FactorizerReal.
Local Open Scope R_scope.








(** The eigenvalue counts of lines 109-110 are counts. *)
Lemma sign_positive_test_R (x : R) :
  s_ltb s_zero (sign x) = s_ltb s_zero x
  /\ (s_ltb s_zero x = true -> sign x = 1).
Proof.
  destruct (sign_cases_R x) as [[Hx Hs]|[[Hx Hs]|[Hx Hs]]]; rewrite Hs;
    simpl; decide_R; split; auto; discriminate.
Qed.

Lemma sign_negative_test_R (x : R) :
  s_ltb (sign x) s_zero = s_ltb x s_zero
  /\ (s_ltb x s_zero = true -> s_abs (sign x) = 1).
Proof.
  destruct (sign_cases_R x) as [[Hx Hs]|[[Hx Hs]|[Hx Hs]]]; rewrite Hs;
    simpl; decide_R; split; auto; try discriminate.
  intros _. rewrite Rabs_left by lra. ring.
Qed.

Lemma nb_eig_sn_positive_count (ev : list R) :
  nb_eig_sn_positive ev
  = INR (length (filter (fun x => s_ltb s_zero x) ev)).
Proof.
  unfold nb_eig_sn_positive.
  induction ev as [|x ev IH]; [reflexivity|].
  cbn [map filter].
  destruct (sign_positive_test_R x) as [E1 E2]. rewrite E1.
  destruct (s_ltb s_zero x); [|exact IH].
  rewrite (E2 eq_refl), sum_cons_R, IH. cbn [length].
  rewrite S_INR. ring.
Qed.

Lemma nb_eig_sn_negative_count (ev : list R) :
  nb_eig_sn_negative ev
  = INR (length (filter (fun x => s_ltb x s_zero) ev)).
Proof.
  unfold nb_eig_sn_negative.
  induction ev as [|x ev IH]; [reflexivity|].
  cbn [map filter].
  destruct (sign_negative_test_R x) as [E1 E2]. rewrite E1.
  destruct (s_ltb x s_zero); [|exact IH].
  cbn [map]. rewrite (E2 eq_refl), sum_cons_R, IH. cbn [length].
  rewrite S_INR. ring.
Qed.

(** X20: the test of line 111 holds exactly when exactly one eigenvalue
    is positive or exactly one is negative; an eigenvalue 0 counts for
    neither. *)
Theorem separable_counts (ev : list R) :
  let positive := length (filter (fun x => s_ltb s_zero x) ev) in
  let negative := length (filter (fun x => s_ltb x s_zero) ev) in
  nb_eig_sn_positive ev = INR positive
  /\ nb_eig_sn_negative ev = INR negative
  /\ (separable ev = true <-> positive = 1%nat \/ negative = 1%nat).
Proof.
  intros positive negative.
  split; [apply nb_eig_sn_positive_count|].
  split; [apply nb_eig_sn_negative_count|].
  unfold separable.
  rewrite nb_eig_sn_positive_count, nb_eig_sn_negative_count.
  fold positive negative. simpl s_eqb. rewrite orb_true_iff.
  change 1 with (INR 1).
  destruct (Req_dec_T (INR 1) (INR positive)) as [Hp|Hp];
    destruct (Req_dec_T (INR 1) (INR negative)) as [Hq|Hq];
    try apply INR_eq in Hp; try apply INR_eq in Hq;
    split; auto; intros [Hc|Hc]; auto; try discriminate;
    exfalso; subst; auto.
Qed.

(** X19: the layout of [B] matches the documented column order of [Q]:
    for a column [q] of the pseudo-shape, the product of the documented
    row [(q_1^2, ..., q_4^2, 2 q_1 q_2, ..., 2 q_3 q_4)] with [b] is the
    quadratic form [q^T B q]. *)
Theorem unpack_B_quadratic_form (q b : list R) :
  length q = 4%nat -> length b = 10%nat ->
  sum (zip_with Rmult (Q_row_documented q) b)
  = sum (zip_with Rmult q (mat_vec (unpack_B b) q)).
Proof.
  intros Hq Hb.
  destruct q as [|q1 [|q2 [|q3 [|q4 [|]]]]]; try discriminate.
  do 10 (destruct b as [|? b]; [discriminate|]).
  destruct b; [|discriminate].
  unfold Q_row_documented, mat_vec, unpack_B, take_flat, sum. simpl. ring.
Qed.

(** X18: what the rows of the computed [Q] encode.  For a pseudo-shape of
    four rows and [n] columns, the entry of [Q b] for pixel [j], with
    column [q], is [c (q^T B q + sum_i B_ii q_i^2)], with [c = 1/2] for
    [j < 4] and [c = 1] for the other pixels: [Q b = 0] constrains the
    quadratic form of [B + diag(B)]. *)
Theorem build_Q_quadratic_form (r0 r1 r2 r3 b : list R) (n j : nat) :
  length r0 = n -> length r1 = n -> length r2 = n -> length r3 = n ->
  length b = 10%nat -> (j < n)%nat ->
  exists Q,
    build_Q [r0; r1; r2; r3] = Done Q
    /\ let q := column j [r0; r1; r2; r3] in
       let B := unpack_B b in
       nth j (mat_vec Q b) 0
       = (if (j <? 4)%nat then / 2 else 1)
         * (sum (zip_with Rmult q (mat_vec B q))
            + sum (zip_with Rmult (diagonal B) (map (fun t => t * t) q))).
Proof.
  intros H0 H1 H2 H3 Hb Hj.
  rewrite (@build_Q_rows R _ r0 r1 r2 r3 n H0 H1 H2 H3).
  eexists. split; [reflexivity|]. cbv zeta.
  unfold mat_vec at 1. rewrite map_map.
  rewrite (nth_map_in_range _ _ 0%nat) by now rewrite length_seq.
  rewrite seq_nth by exact Hj. simpl Nat.add.
  set (q := column j [r0; r1; r2; r3]).
  assert (Hq : q = [nth j r0 0; nth j r1 0; nth j r2 0; nth j r3 0])
    by reflexivity.
  rewrite Hq.
  do 10 (destruct b as [|? b]; [discriminate|]).
  destruct b; [|discriminate].
  unfold Q_row_computed, Q_products.
  destruct (j <? 4)%nat;
    unfold mat_vec, unpack_B, take_flat, diagonal, sum; simpl; field.
Qed.
End FactorizerReal.


Lemma unpack_B_quadratic_form_witness :
  sum (zip_with Rmult (Q_row_documented [1; 2; 3; 4]%R) Inputs.b_sep_R)
  = sum (zip_with Rmult [1; 2; 3; 4]%R
           (mat_vec (unpack_B Inputs.b_sep_R) [1; 2; 3; 4]%R)).
Proof.
  apply (@unpack_B_quadratic_form [1; 2; 3; 4]%R Inputs.b_sep_R);
    reflexivity.
Defined.

Lemma build_Q_quadratic_form_witness :
  exists Q,
    build_Q [[1; 1; 1; 1; 1]; [2; 2; 2; 2; 2]; [3; 3; 3; 3; 3];
             [4; 4; 4; 4; 4]]%R = Done Q
    /\ let q := column 4 [[1; 1; 1; 1; 1]; [2; 2; 2; 2; 2];
                          [3; 3; 3; 3; 3]; [4; 4; 4; 4; 4]]%R in
       let B := unpack_B Inputs.b_sep_R in
       nth 4 (mat_vec Q Inputs.b_sep_R) 0%R
       = ((if 4 <? 4 then / 2 else 1)
          * (sum (zip_with Rmult q (mat_vec B q))
             + sum (zip_with Rmult (diagonal B) (map (fun t => t * t) q))))%R.
Proof.
  apply (@build_Q_quadratic_form [1; 1; 1; 1; 1]%R [2; 2; 2; 2; 2]%R
           [3; 3; 3; 3; 3]%R [4; 4; 4; 4; 4]%R Inputs.b_sep_R 5 4);
    try reflexivity.
  lia.
Defined.

(** ** UncalibratedFactorizer: the rows of Q *)

(** X17: [build_Q] on a pseudo-shape of four rows and [n] columns returns
    a matrix of [n] rows of ten entries, one row per pixel: the ten
    products of the column of the pixel, as they are for the pixels 0
    to 3 and all ten doubled for the pixels of index 4 and more. *)
Theorem build_Q_pixel_rows {T : Type} `{Scalar T} (r0 r1 r2 r3 : list T) n :
  length r0 = n -> length r1 = n -> length r2 = n -> length r3 = n ->
  exists Q,
    build_Q [r0; r1; r2; r3] = Done Q
    /\ length Q = n
    /\ forall j, j < n ->
         let q := column j [r0; r1; r2; r3] in
         length (nth j Q []) = 10
         /\ nth j Q []
            = if j <? 4 then Q_products q
              else map (fun x => (x * s_two)%S) (Q_products q).
Proof.
  intros H0 H1 H2 H3.
  rewrite (build_Q_rows r0 r1 r2 r3 H0 H1 H2 H3).
  eexists. split; [reflexivity|]. split.
  - now rewrite length_map, length_seq.
  - intros j Hj q.
    rewrite (nth_map_in_range _ _ 0) by now rewrite length_seq.
    rewrite seq_nth by exact Hj. simpl Nat.add. fold q.
    unfold Q_row_computed. destruct (j <? 4); split; reflexivity.
Qed.

Lemma build_Q_pixel_rows_witness :
  exists Q,
    build_Q [[1; 1; 1; 1; 1]; [2; 2; 2; 2; 2]; [3; 3; 3; 3; 3];
             [4; 4; 4; 4; 4]]%float = Done Q
    /\ length Q = 5
    /\ forall j, j < 5 ->
         let q := column j [[1; 1; 1; 1; 1]; [2; 2; 2; 2; 2];
                            [3; 3; 3; 3; 3]; [4; 4; 4; 4; 4]]%float in
         length (nth j Q []) = 10
         /\ nth j Q []
            = if j <? 4 then Q_products q
              else map (fun x => (x * s_two)%S) (Q_products q).
Proof.
  apply (@build_Q_pixel_rows float _ [1; 1; 1; 1; 1]%float
           [2; 2; 2; 2; 2]%float [3; 3; 3; 3; 3]%float
           [4; 4; 4; 4; 4]%float 5); reflexivity.
Defined.
